(** * react-taco-table, [lib/Utils.js]: cell access, sort keys, comparators,
      stable sorting and column validation.

    A shallow embedding of the utility module together with the properties
    its documentation states.  In order:

    - [Number]: the numbers the comparators compute with;
    - [Js]: values, [== null], [===], and further down the coercions
      [String(v)], [parseFloat(v)] and [a < b];
    - the contract of [Array.prototype.sort] and the class [Host] of what
      the engine provides;
    - rows, columns, sort items and the functions [getCellData] to
      [getSortComparator];
    - the store of row arrays and the console, with the small
      state-and-error monad [M] in which [sortData] and [validateColumns]
      run;
    - a reference engine and sample tables to run everything on;
    - the properties.

    [renderCell] and the [renderer] field of a column take no part in
    sorting or validation and are left out. *)

From Stdlib Require Import QArith Qcanon Ascii.
From stdpp Require Import base numbers option list strings pretty gmap fin_maps sorting lexico.

Local Open Scope Z_scope.

(** ** JavaScript numbers *)

(** Finite doubles are embedded in the rationals; the three special values
    are kept apart.  The comparators only ever subtract two numbers and look
    at the sign of the difference (or test it against zero), and on doubles
    the rounded difference has the sign of the exact one and is zero exactly
    when the operands are equal, so exact arithmetic on [Qc] decides every
    branch the way IEEE arithmetic does.  The two zeros are identified:
    [-0 === 0] holds in the source language. *)
Module Number.

Inductive number : Type :=
| NaN
| Inf (negative : bool)
| Fin (q : Qc).

#[global] Instance number_eq_dec : EqDecision number.
Proof. solve_decision. Defined.

Definition zero : number := Fin 0%Qc.
Definition one : number := Fin 1%Qc.
Definition minus_one : number := Fin (- 1)%Qc.
Definition of_Z (z : Z) : number := Fin (Qc_of_Z z).
Definition of_nat (n : nat) : number := of_Z (Z.of_nat n).

(** [x - y] *)
Definition sub (x y : number) : number :=
  match x, y with
  | NaN, _ | _, NaN => NaN
  | Inf s, Inf t => if Bool.eqb s t then NaN else Inf s
  | Inf s, Fin _ => Inf s
  | Fin _, Inf t => Inf (negb t)
  | Fin p, Fin q => Fin (p - q)%Qc
  end.

(** [x === y] on numbers: [NaN] is different from everything. *)
Definition strict_eq (x y : number) : bool :=
  match x, y with
  | NaN, _ | _, NaN => false
  | Inf s, Inf t => Bool.eqb s t
  | Fin p, Fin q => bool_decide (p = q)
  | _, _ => false
  end.

(** [x < y] on numbers: false as soon as one side is [NaN]. *)
Definition lt (x y : number) : bool :=
  match x, y with
  | NaN, _ | _, NaN => false
  | Inf s, Inf t => s && negb t
  | Inf s, Fin _ => s
  | Fin _, Inf t => negb t
  | Fin p, Fin q => bool_decide (p < q)%Qc
  end.

Definition is_nan (x : number) : bool :=
  match x with NaN => true | _ => false end.
Definition is_finite (x : number) : bool :=
  match x with Fin _ => true | _ => false end.

Definition is_negative (x : number) : bool := lt x zero.
Definition is_positive (x : number) : bool := lt zero x.

End Number.
Export Number (number(..)).

Declare Scope number_scope.
Delimit Scope number_scope with num.
Bind Scope number_scope with number.
Infix "-" := Number.sub : number_scope.

(** ** JavaScript values *)

Module Js.

(** Object identity: two objects are [===] exactly when they are the same
    object, whatever they contain. *)
Definition loc : Type := positive.

Inductive prim : Type :=
| PUndefined
| PNull
| PBool (b : bool)
| PNum (n : number)
| PStr (s : string).

Inductive value : Type :=
| Prim (p : prim)
| Obj (o : loc).

#[global] Instance prim_eq_dec : EqDecision prim.
Proof. solve_decision. Defined.
#[global] Instance value_eq_dec : EqDecision value.
Proof. solve_decision. Defined.

Definition undefined : value := Prim PUndefined.
Definition null : value := Prim PNull.
Definition num (n : number) : value := Prim (PNum n).
Definition str (s : string) : value := Prim (PStr s).

(** [v == null]: true for [null] and [undefined] only. *)
Definition is_nullish (v : value) : bool :=
  match v with
  | Prim PUndefined | Prim PNull => true
  | _ => false
  end.

(** [a === b] *)
Definition strict_equals (a b : value) : bool :=
  match a, b with
  | Prim PUndefined, Prim PUndefined => true
  | Prim PNull, Prim PNull => true
  | Prim (PBool x), Prim (PBool y) => Bool.eqb x y
  | Prim (PNum x), Prim (PNum y) => Number.strict_eq x y
  | Prim (PStr x), Prim (PStr y) => bool_decide (x = y)
  | Obj x, Obj y => bool_decide (x = y)
  | _, _ => false
  end.

(** The hint of [ToPrimitive]. *)
Inductive hint : Type := HintString | HintNumber.

End Js.
Export Js.

(** ** The contract of [Array.prototype.sort]

    The comparator's result goes through [SortCompare], which reads [NaN] as
    [+0]; only the sign is used. *)

Section Comparators.
Context {A : Type} (comparefn : A → A → number).

Definition cf_lt (a b : A) : bool := Number.is_negative (comparefn a b).
Definition cf_gt (a b : A) : bool := Number.is_positive (comparefn a b).
Definition cf_eq (a b : A) : bool := negb (cf_lt a b) && negb (cf_gt a b).

(** A consistent comparison function for the values of [S], after the
    language standard: never [NaN], [=CF] an equivalence, [<CF] and [>CF]
    transitive. *)
Record consistent_on (S : list A) : Prop := {
  cf_not_nan a b : a ∈ S → b ∈ S → Number.is_nan (comparefn a b) = false;
  cf_refl a : a ∈ S → cf_eq a a = true;
  cf_sym a b : a ∈ S → b ∈ S → cf_eq a b = true → cf_eq b a = true;
  cf_eq_trans a b c :
    a ∈ S → b ∈ S → c ∈ S → cf_eq a b = true → cf_eq b c = true → cf_eq a c = true;
  cf_lt_trans a b c :
    a ∈ S → b ∈ S → c ∈ S → cf_lt a b = true → cf_lt b c = true → cf_lt a c = true;
  cf_gt_trans a b c :
    a ∈ S → b ∈ S → c ∈ S → cf_gt a b = true → cf_gt b c = true → cf_gt a c = true;
}.

(** The sort order the standard promises for a consistent comparator: no
    element is placed after one it is [<CF] of. *)
Definition sorted_by (out : list A) : Prop :=
  ∀ (i j : nat) (x y : A),
    out !! i = Some x → out !! j = Some y → (i < j)%nat → cf_lt y x = false.

(** The executable form of [consistent_on]. *)
Definition consistentb (S : list A) : bool :=
  forallb (λ a,
    cf_eq a a &&
    forallb (λ b,
      negb (Number.is_nan (comparefn a b)) &&
      implb (cf_eq a b) (cf_eq b a) &&
      forallb (λ c,
        implb (cf_eq a b && cf_eq b c) (cf_eq a c) &&
        implb (cf_lt a b && cf_lt b c) (cf_lt a c) &&
        implb (cf_gt a b && cf_gt b c) (cf_gt a c)) S) S) S.

End Comparators.

(** ** What the engine provides *)

Class Host : Type := {
  (** [parseFloat] applied to text *)
  host_parseFloat : string → number;
  (** [Number::toString] and [StringToNumber] *)
  host_number_to_string : number → string;
  host_string_to_number : string → number;
  (** [ToPrimitive] on an object, through its [valueOf] and [toString] *)
  host_to_primitive : hint → loc → prim;
  (** [String.prototype.toLowerCase] and [String.prototype.localeCompare] *)
  host_toLowerCase : string → string;
  host_localeCompare : string → string → number;
  (** [a < b] on two texts: the order of their UTF-16 code units, whatever
      way the texts of the program are written down as [string]s *)
  host_code_unit_lt : string → string → bool;
  (** [Array.prototype.sort], as a function from the old to the new contents *)
  host_sort : ∀ A : Type, (A → A → number) → list A → list A;

  host_localeCompare_refl s : host_localeCompare s s = Number.zero;
  host_sort_perm A (comparefn : A → A → number) l :
    host_sort A comparefn l ≡ₚ l;
  host_sort_sorted A (comparefn : A → A → number) l :
    consistent_on comparefn l → sorted_by comparefn (host_sort A comparefn l);
}.
Arguments host_sort {_ _} _ _.

(** ** Coercions *)

Section Coercions.
Context `{Host}.

Definition ToPrimitive (h : hint) (v : value) : prim :=
  match v with
  | Prim p => p
  | Obj o => host_to_primitive h o
  end.

(** [String(v)] *)
Definition ToString (v : value) : string :=
  match ToPrimitive HintString v with
  | PUndefined => "undefined"
  | PNull => "null"
  | PBool true => "true"
  | PBool false => "false"
  | PNum n => host_number_to_string n
  | PStr s => s
  end.

Definition ToNumber (p : prim) : number :=
  match p with
  | PUndefined => NaN
  | PNull => Number.zero
  | PBool true => Number.one
  | PBool false => Number.zero
  | PNum n => n
  | PStr s => host_string_to_number s
  end.

(** [parseFloat(v)].  The argument is first converted to text; a number
    prints as a literal that reads back as the same number, so the
    round trip through text is not spelt out for numbers. *)
Definition parseFloat (v : value) : number :=
  match v with
  | Prim (PNum n) => n
  | _ => host_parseFloat (ToString v)
  end.

(** [a < b]: two strings are compared by code units, anything else as
    numbers. *)
Definition less_than (a b : value) : bool :=
  match ToPrimitive HintNumber a, ToPrimitive HintNumber b with
  | PStr x, PStr y => host_code_unit_lt x y
  | px, py => Number.lt (ToNumber px) (ToNumber py)
  end.

End Coercions.

(** ** The table model *)

(** Modelled from the spec: the module [./DataType], which [Utils.js]
    requires, is missing.  The spec gives the enumeration
    [Number, NumberOrdinal, String, <others treated generically>]. *)
Module DataType.
Inductive t : Type :=
| Number
| NumberOrdinal
| String
| Other (name : string).

#[global] Instance data_type_eq_dec : EqDecision t.
Proof. solve_decision. Defined.
End DataType.

(** Modelled from the spec: the module [./SortDirection], which [Utils.js]
    requires, is missing.  The spec gives the enumeration
    [Ascending, Descending]. *)
Module SortDirection.
Inductive t : Type :=
| Ascending
| Descending.

#[global] Instance sort_direction_eq_dec : EqDecision t.
Proof. solve_decision. Defined.
End SortDirection.

(** A row record is a caller's object: an identity and its properties. *)
Record row : Type := {
  row_ref : loc;
  row_props : gmap string value;
}.

#[global] Instance row_eq_dec : EqDecision row.
Proof. solve_decision. Defined.

(** [rowData[key]] *)
Definition row_get (rowData : row) (key : string) : value :=
  default undefined (row_props rowData !! key).

(** [column.value]: absent, [null], a key into the row, or a function. *)
Inductive accessor : Type :=
| AccUndefined
| AccNull
| AccKey (key : string)
| AccFunction (f : loc).

(** A column definition.  Functions are objects; a column refers to them. *)
Record column_def : Type := {
  column_id : string;
  column_value : accessor;
  column_sortValue : option loc;
  column_type : option DataType.t;
  column_sortType : option DataType.t;
}.

#[global] Instance accessor_eq_dec : EqDecision accessor.
Proof. solve_decision. Defined.
#[global] Instance column_def_eq_dec : EqDecision column_def.
Proof. solve_decision. Defined.

(** The caller's functions: what calling [column.value] and
    [column.sortValue] returns. *)
Class Callbacks : Type := {
  call_value : loc → row → nat → list row → list column_def → value;
  call_sortValue : loc → value → row → value;
}.

(** The items [sortData] sorts. *)
Record sortItem : Type := {
  rowData : row;
  index : nat;
  sortValue : value;
}.

Section Utils.
Context `{Host} `{Callbacks}.

Definition getCellData (column : column_def) (rowData : row) (rowNumber : nat)
    (tableData : list row) (columns : list column_def) : value :=
  let value := column_value column in
  let id := column_id column in
  match value with
  | AccFunction f => call_value f rowData rowNumber tableData columns
  | AccKey key => row_get rowData key
  | AccNull | AccUndefined => row_get rowData id
  end.

Definition getSortValueFromCellData (cellData : value) (column : column_def)
    (rowData : row) : value :=
  match column_sortValue column with
  | Some sortValue => call_sortValue sortValue cellData rowData
  | None => cellData
  end.

Definition getSortValue (column : column_def) (rowData : row) (rowNumber : nat)
    (tableData : list row) (columns : list column_def) : value :=
  let cellData := getCellData column rowData rowNumber tableData columns in
  getSortValueFromCellData cellData column rowData.

Definition getColumnById (columns : list column_def) (columnId : string)
    : option column_def :=
  List.find (λ column, bool_decide (column_id column = columnId)) columns.

(** [a.index - b.index] *)
Definition index_difference (a b : sortItem) : number :=
  (Number.of_nat (index a) - Number.of_nat (index b))%num.

Definition numberComparator (a b : sortItem) : number :=
  let aSortValue := sortValue a in
  let bSortValue := sortValue b in
  if is_nullish aSortValue && is_nullish bSortValue then index_difference a b
  else if is_nullish aSortValue then Number.one
  else if is_nullish bSortValue then Number.minus_one
  else
    let difference := (parseFloat aSortValue - parseFloat bSortValue)%num in
    if Number.strict_eq difference Number.zero then index_difference a b
    else difference.

Definition stringComparator (a b : sortItem) : number :=
  let aSortValue := sortValue a in
  let bSortValue := sortValue b in
  if is_nullish aSortValue && is_nullish bSortValue then index_difference a b
  else if is_nullish aSortValue then Number.minus_one
  else if is_nullish bSortValue then Number.one
  else
    let result :=
      host_localeCompare (host_toLowerCase (ToString aSortValue))
                         (host_toLowerCase (ToString bSortValue)) in
    if Number.strict_eq result Number.zero then index_difference a b
    else result.

Definition defaultComparator (a b : sortItem) : number :=
  let aSortValue := sortValue a in
  let bSortValue := sortValue b in
  if is_nullish aSortValue && is_nullish bSortValue then index_difference a b
  else if is_nullish aSortValue then Number.minus_one
  else if is_nullish bSortValue then Number.one
  else if strict_equals aSortValue bSortValue then index_difference a b
  else if less_than aSortValue bSortValue then Number.minus_one
  else Number.one.

(** [type] is the column's [type] or [sortType]; either may be missing. *)
Definition getSortComparator (type : option DataType.t)
    : sortItem → sortItem → number :=
  match type with
  | Some DataType.Number | Some DataType.NumberOrdinal => numberComparator
  | Some DataType.String => stringComparator
  | _ => defaultComparator
  end.

End Utils.

(** ** The store, the console and the monad of the effectful functions *)

(** What [console.warn] receives: [sortData] passes a fixed text, the
    identifier and the columns; [validateColumns] passes the text it builds
    and the array of offending columns. *)
Inductive diagnostic : Type :=
| NoColumnFound (columnId : string) (columns : list column_def)
| ColumnIdReused (message : string) (offending : list column_def).

#[global] Instance diagnostic_eq_dec : EqDecision diagnostic.
Proof. solve_decision. Defined.

(** The arrays of rows that exist, what has been written to the console
    (oldest first), and whether [process.env.NODE_ENV] is ['production']. *)
Record world : Type := {
  arrays : gmap loc (list row);
  console : list diagnostic;
  production : bool;
}.

Inductive error : Type :=
| TypeError (message : string).

(** How a call ends.  [Unmodelled]: the call went into code of the caller
    that is not described here, a method of an object that is not one of
    the arrays of rows; nothing is said about what follows. *)
Inductive outcome (A : Type) : Type :=
| Return (a : A) (w : world)
| Throw (e : error) (w : world)
| Unmodelled.
Arguments Return {A} a w.
Arguments Throw {A} e w.
Arguments Unmodelled {A}.

Definition M (A : Type) : Type := world → outcome A.

#[global] Instance M_ret : MRet M := λ A a w, Return a w.
#[global] Instance M_bind : MBind M := λ A B f m w,
  match m w with
  | Return a w' => f a w'
  | Throw e w' => Throw e w'
  | Unmodelled => Unmodelled
  end.

Definition throw {A : Type} (e : error) : M A := λ w, Throw e w.

Definition console_warn (d : diagnostic) : M unit := λ w,
  Return () {| arrays := arrays w; console := console w ++ [d];
               production := production w |}.

Definition node_env_is_production : M bool := λ w, Return (production w) w.

(** The elements [a.map] goes through when [a] is an array of rows.  On
    anything else [a.map] is whatever the caller made it: it may be missing
    (a [TypeError]) or be a function of the caller's own, which is called
    and whose result is sorted. *)
Definition array_read (a : loc) : M (list row) := λ w,
  match arrays w !! a with
  | Some rows => Return rows w
  | None => Unmodelled
  end.

(** A new array: an identity no existing array has. *)
Definition array_new (rows : list row) : M loc := λ w,
  let a := fresh (dom (arrays w)) in
  Return a {| arrays := <[a := rows]> (arrays w); console := console w;
              production := production w |}.

(** [a.reverse()], in place. *)
Definition array_reverse (a : loc) : M unit := λ w,
  match arrays w !! a with
  | Some rows =>
      Return () {| arrays := <[a := reverse rows]> (arrays w);
                   console := console w; production := production w |}
  | None => Unmodelled
  end.

Section SortData.
Context `{Host} `{Callbacks}.

(** The callback of the first [map] in [sortData], over the whole array. *)
Definition sortItems (column : column_def) (data : list row)
    (columns : list column_def) : list sortItem :=
  imap (λ index rowData,
          {| rowData := rowData;
             index := index;
             sortValue := getSortValue column rowData index data columns |})
       data.

Definition sortData (data : loc) (columnId : string)
    (sortDirection : SortDirection.t) (columns : list column_def) : M loc :=
  match getColumnById columns columnId with
  | None =>
      isProduction ← node_env_is_production;
      (if isProduction : bool then mret ()
       else console_warn (NoColumnFound columnId columns));;
      mret data
  | Some column =>
      (* read the type from `sortType` property if defined, otherwise use `type` *)
      let sortType :=
        match column_sortType column with
        | None => column_type column
        | Some t => Some t
        end in
      let comparator := getSortComparator sortType in
      rows ← array_read data;
      sortedData ←
        array_new (rowData <$> host_sort comparator (sortItems column rows columns));
      (if bool_decide (sortDirection = SortDirection.Descending)
       then array_reverse sortedData
       else mret ());;
      mret sortedData
  end.

End SortData.

(** The effective type in the words of the spec: [column.sortType] if
    present, else [column.type]. *)
Definition effective_type (column : column_def) : option DataType.t :=
  match column_sortType column with
  | Some sortType => Some sortType
  | None => column_type column
  end.

(** ** [validateColumns] *)

(** The object [ids] starts as [{}]: it has no property of its own, and it
    inherits those of [Object.prototype].  Its own properties are kept in
    creation order. *)
Definition object_prototype_properties : list string :=
  [ "constructor"; "hasOwnProperty"; "isPrototypeOf"; "propertyIsEnumerable";
    "toLocaleString"; "toString"; "valueOf"; "__proto__";
    "__defineGetter__"; "__defineSetter__"; "__lookupGetter__";
    "__lookupSetter__" ].

Inductive property : Type :=
| Own (positions : list nat)
| Inherited
| Missing.

(** [ids[id]] *)
Fixpoint own_property (ids : list (string * list nat)) (id : string)
    : option (list nat) :=
  match ids with
  | [] => None
  | (k, positions) :: ids' =>
      if bool_decide (k = id) then Some positions else own_property ids' id
  end.

Definition ids_get (ids : list (string * list nat)) (id : string) : property :=
  match own_property ids id with
  | Some positions => Own positions
  | None =>
      if bool_decide (id ∈ object_prototype_properties) then Inherited
      else Missing
  end.

(** [ids[id].push(i)] on an own property *)
Fixpoint ids_push (ids : list (string * list nat)) (id : string) (i : nat)
    : list (string * list nat) :=
  match ids with
  | [] => []
  | (k, positions) :: ids' =>
      if bool_decide (k = id) then (k, positions ++ [i]) :: ids'
      else (k, positions) :: ids_push ids' id i
  end.

(** The body of the first [forEach].  An array is truthy, so is every
    property of [Object.prototype]; these have no [push]. *)
Definition record_column (ids : list (string * list nat)) (i : nat)
    (column : column_def) : error + list (string * list nat) :=
  let id := column_id column in
  match ids_get ids id with
  | Missing => inr (ids ++ [(id, [i])])
  | Own _ => inr (ids_push ids id i)
  | Inherited => inl (TypeError "ids[id].push is not a function")
  end.

Fixpoint record_columns (ids : list (string * list nat)) (i : nat)
    (columns : list column_def) : error + list (string * list nat) :=
  match columns with
  | [] => inr ids
  | column :: rest =>
      match record_column ids i column with
      | inl e => inl e
      | inr ids' => record_columns ids' (S i) rest
      end
  end.

(** A property key that is an array index: a decimal numeral without
    leading zero, below [2^32 - 1]. *)
Definition digit_value (c : ascii) : option N :=
  let n := N_of_ascii c in
  if ((48 <=? n) && (n <=? 57))%N then Some (n - 48)%N else None.

Fixpoint digits_value (acc : N) (s : string) : option N :=
  match s with
  | EmptyString => Some acc
  | String c s' =>
      match digit_value c with
      | Some d => digits_value (10 * acc + d)%N s'
      | None => None
      end
  end.

Definition array_index (key : string) : option N :=
  match key with
  | EmptyString => None
  | String "0"%char EmptyString => Some 0%N
  | String "0"%char _ => None
  | _ =>
      match digits_value 0 key with
      | Some n => if (n <? 2 ^ 32 - 1)%N then Some n else None
      | None => None
      end
  end.

Definition index_key_le (x y : N * string) : Prop := (x.1 ≤ y.1)%N.
#[global] Instance index_key_le_dec : RelDecision index_key_le.
Proof. intros x y. unfold index_key_le. apply _. Defined.

(** [Object.keys(ids)]: array indices first, in ascending order, then the
    other keys in creation order. *)
Definition object_keys (ids : list (string * list nat)) : list string :=
  let keys := ids.*1 in
  (merge_sort index_key_le
     (omap (λ k, (λ n, (n, k)) <$> array_index k) keys)).*2
  ++ filter (λ k, array_index k = None) keys.

(** ['Column ID \'' + id + '\' used in multiple columns ' + positions.join(', ')] *)
Definition reused_message (id : string) (positions : list nat) : string :=
  "Column ID '" +:+ id +:+ "' used in multiple columns "
  +:+ String.concat ", " (pretty <$> positions).

(** The body of the second [forEach]. *)
Definition report_id (columns : list column_def)
    (ids : list (string * list nat)) (id : string) : M unit :=
  match own_property ids id with
  | Some positions =>
      if (1 <? length positions)%nat then
        console_warn
          (ColumnIdReused (reused_message id positions)
                          (omap (λ index, columns !! index) positions))
      else mret ()
  | None => mret ()
  end.

Fixpoint forEach {A : Type} (f : A → M unit) (l : list A) : M unit :=
  match l with
  | [] => mret ()
  | x :: l' => f x;; forEach f l'
  end.

(** [columns] may be absent. *)
Definition validateColumns (columns : option (list column_def)) : M unit :=
  match columns with
  | None => mret ()
  | Some columns =>
      (* check IDs *)
      match record_columns [] 0 columns with
      | inl e => throw e
      | inr ids => forEach (report_id columns ids) (object_keys ids)
      end
  end.


(** ** A reference engine

    An engine against which the functions above can be run: insertion sort
    for [Array.prototype.sort], code-unit order for [localeCompare], ASCII
    case folding, decimal literals without exponent part, and objects that
    print as plain objects do. *)

Module Engine.

(** [x] goes in front of the first element that is [>CF] it. *)
Fixpoint insert {A : Type} (comparefn : A → A → number) (x : A) (l : list A)
    : list A :=
  match l with
  | [] => [x]
  | y :: l' =>
      if cf_gt comparefn y x then x :: y :: l'
      else y :: insert comparefn x l'
  end.

Definition insertion_sort (A : Type) (comparefn : A → A → number)
    (l : list A) : list A :=
  fold_left (λ sorted x, insert comparefn x sorted) l [].

(** A second sorting algorithm, correct but not stable: [x] goes in front
    of the first element that is not [<CF] it, hence in front of the
    elements it ties with. *)
Fixpoint insert_early {A : Type} (comparefn : A → A → number) (x : A)
    (l : list A) : list A :=
  match l with
  | [] => [x]
  | y :: l' =>
      if cf_lt comparefn y x then y :: insert_early comparefn x l'
      else x :: y :: l'
  end.

Definition unstable_sort (A : Type) (comparefn : A → A → number)
    (l : list A) : list A :=
  fold_left (λ sorted x, insert_early comparefn x sorted) l [].

Definition lower_char (c : ascii) : ascii :=
  let n := N_of_ascii c in
  if ((65 <=? n) && (n <=? 90))%N then ascii_of_N (n + 32) else c.

Fixpoint toLowerCase (s : string) : string :=
  match s with
  | EmptyString => EmptyString
  | String c s' => String (lower_char c) (toLowerCase s')
  end.

Definition localeCompare (a b : string) : number :=
  match String.compare a b with
  | Lt => Number.minus_one
  | Eq => Number.zero
  | Gt => Number.one
  end.

(** The UTF-16 code units of a text written down in UTF-8.  A byte that
    starts no well-formed sequence stands for itself. *)
Definition continuation (b : N) : bool := ((128 <=? b) && (b <? 192))%N.

Fixpoint code_units (bytes : list N) : list N :=
  match bytes with
  | [] => []
  | b0 :: rest =>
      match rest with
      | b1 :: (b2 :: (b3 :: rest3) as rest2) as rest1 =>
          if ((240 <=? b0) && (b0 <? 248))%N
             && continuation b1 && continuation b2 && continuation b3
          then
            let code_point :=
              ((b0 - 240) * 262144 + (b1 - 128) * 4096
               + (b2 - 128) * 64 + (b3 - 128))%N in
            (55296 + (code_point - 65536) / 1024)%N
            :: (56320 + (code_point - 65536) mod 1024)%N
            :: code_units rest3
          else if ((224 <=? b0) && (b0 <? 240))%N
                  && continuation b1 && continuation b2
          then ((b0 - 224) * 4096 + (b1 - 128) * 64 + (b2 - 128))%N
               :: code_units rest2
          else if ((192 <=? b0) && (b0 <? 224))%N && continuation b1
          then ((b0 - 192) * 64 + (b1 - 128))%N :: code_units rest1
          else b0 :: code_units rest
      | b1 :: (b2 :: rest2) as rest1 =>
          if ((224 <=? b0) && (b0 <? 240))%N
             && continuation b1 && continuation b2
          then ((b0 - 224) * 4096 + (b1 - 128) * 64 + (b2 - 128))%N
               :: code_units rest2
          else if ((192 <=? b0) && (b0 <? 224))%N && continuation b1
          then ((b0 - 192) * 64 + (b1 - 128))%N :: code_units rest1
          else b0 :: code_units rest
      | b1 :: rest1 =>
          if ((192 <=? b0) && (b0 <? 224))%N && continuation b1
          then ((b0 - 192) * 64 + (b1 - 128))%N :: code_units rest1
          else b0 :: code_units rest
      | [] => [b0]
      end
  end.

Fixpoint code_units_lt (x y : list N) : bool :=
  match x, y with
  | _, [] => false
  | [], _ :: _ => true
  | a :: x', b :: y' => (a <? b)%N || ((a =? b)%N && code_units_lt x' y')
  end.

Definition code_unit_lt (x y : string) : bool :=
  code_units_lt (code_units (N_of_ascii <$> String.list_ascii_of_string x))
                (code_units (N_of_ascii <$> String.list_ascii_of_string y)).

Definition is_space (c : ascii) : bool :=
  let n := N_of_ascii c in
  bool_decide (n = 32 ∨ n = 9 ∨ n = 10 ∨ n = 11 ∨ n = 12 ∨ n = 13)%N.

Fixpoint skip_spaces (s : string) : string :=
  match s with
  | String c s' => if is_space c then skip_spaces s' else s
  | EmptyString => EmptyString
  end.

(** The digits a text starts with: their count, their value on top of
    [acc], and the text that follows. *)
Fixpoint leading_digits (count : nat) (acc : N) (s : string)
    : nat * N * string :=
  match s with
  | String c s' =>
      match digit_value c with
      | Some d => leading_digits (S count) (10 * acc + d)%N s'
      | None => (count, acc, s)
      end
  | EmptyString => (count, acc, s)
  end.

(** The longest prefix [digits], [digits.digits] or [.digits]. *)
Definition decimal_prefix (s : string) : option (Qc * string) :=
  let '(int_count, int_value, rest) := leading_digits 0 0 s in
  let '(frac_count, value, rest') :=
    match rest with
    | String "."%char after => leading_digits 0 int_value after
    | _ => (0%nat, int_value, rest)
    end in
  if bool_decide (int_count = 0%nat ∧ frac_count = 0%nat) then None
  else Some (Q2Qc (Z.of_N value # Z.to_pos (10 ^ Z.of_nat frac_count)), rest').

Definition signed (s : string) : bool * string :=
  match s with
  | String "-"%char s' => (true, s')
  | String "+"%char s' => (false, s')
  | _ => (false, s)
  end.

Definition parseFloat_text (s : string) : number :=
  let '(negative, body) := signed (skip_spaces s) in
  if String.prefix "Infinity" body then Inf negative
  else
    match decimal_prefix body with
    | Some (q, _) => Fin (if negative then - q else q)%Qc
    | None => NaN
    end.

(** [StringToNumber]: the whole text has to be a numeral; the empty text
    is zero. *)
Definition string_to_number (s : string) : number :=
  let '(negative, body) := signed (skip_spaces s) in
  match body with
  | EmptyString => if bool_decide (skip_spaces s = EmptyString) then Number.zero else NaN
  | _ =>
      if bool_decide (skip_spaces (String.substring 8 (String.length body) body)
                      = EmptyString) && String.prefix "Infinity" body
      then Inf negative
      else
        match decimal_prefix body with
        | Some (q, rest) =>
            if bool_decide (skip_spaces rest = EmptyString)
            then Fin (if negative then - q else q)%Qc
            else NaN
        | None => NaN
        end
  end.

(** Up to [fuel] digits of the fraction [r/d]. *)
Fixpoint fraction_digits (fuel : nat) (r d : N) : string :=
  match fuel with
  | O => EmptyString
  | S fuel' =>
      if (r =? 0)%N then EmptyString
      else pretty (10 * r / d)%N +:+ fraction_digits fuel' (10 * r mod d)%N d
  end.

Definition number_to_string (x : number) : string :=
  match x with
  | NaN => "NaN"
  | Inf false => "Infinity"
  | Inf true => "-Infinity"
  | Fin q =>
      let n := Qnum q in
      let d := Npos (Qden q) in
      let a := Z.to_N (Z.abs n) in
      let fraction := fraction_digits 20 (a mod d)%N d in
      (if (n <? 0)%Z then "-" else "")
      +:+ pretty (a / d)%N
      +:+ (if bool_decide (fraction = EmptyString) then "" else "." +:+ fraction)
  end.

(** A plain object: [valueOf] gives the object back, [toString] prints it. *)
Definition to_primitive (_ : hint) (_ : loc) : prim := PStr "[object Object]".

End Engine.

(** A caller whose [value] functions return [undefined] and whose
    [sortValue] functions return the cell data. *)
#[global] Instance no_callbacks : Callbacks :=
  {| call_value := λ _ _ _ _ _, undefined;
     call_sortValue := λ _ cellData _, cellData |}.


(** ** Vocabulary of the statements *)

(** Two sort keys are equal: both null or missing, or [===]. *)
Definition keys_equal (a b : sortItem) : bool :=
  is_nullish (sortValue a) && is_nullish (sortValue b)
  || strict_equals (sortValue a) (sortValue b).

Definition numeric (type : option DataType.t) : bool :=
  match type with
  | Some DataType.Number | Some DataType.NumberOrdinal => true
  | _ => false
  end.

(** The positions at which [id] occurs in [columns], the first column
    counting as position [i]. *)
Fixpoint positions_from (i : nat) (id : string) (columns : list column_def)
    : list nat :=
  match columns with
  | [] => []
  | column :: rest =>
      if bool_decide (column_id column = id)
      then i :: positions_from (S i) id rest
      else positions_from (S i) id rest
  end.

Definition positions_of (id : string) (columns : list column_def) : list nat :=
  positions_from 0 id columns.

(** What the console receives for a reused [id]. *)
Definition reused_diagnostic (columns : list column_def) (id : string)
    : diagnostic :=
  ColumnIdReused (reused_message id (positions_of id columns))
                 (filter (λ column, column_id column = id) columns).

(** The position lists after the first loop: what was there, followed by
    the positions met. *)
Definition extend (found : option (list nat)) (met : list nat)
    : option (list nat) :=
  match found with
  | Some ps => Some (ps ++ met)
  | None => match met with [] => None | _ => Some met end
  end.

(** The diagnostic the second loop emits for one key, if any. *)
Definition report_of (columns : list column_def)
    (ids : list (string * list nat)) (id : string) : option diagnostic :=
  match own_property ids id with
  | Some positions =>
      if (1 <? length positions)%nat then
        Some (ColumnIdReused (reused_message id positions)
                             (omap (λ index, columns !! index) positions))
      else None
  | None => None
  end.

(** Null keys rank above every number. *)
#[global] Instance rank_lexico : Lexico (option Qc) := λ x y,
  match x, y with
  | Some p, Some q => (p < q)%Qc
  | Some _, None => True
  | None, _ => False
  end.

#[global] Instance Qc_lexico : Lexico Qc := Qclt.

(** A key the default comparator orders as a number: null, or a finite
    number itself (not text that reads as one). *)
Definition null_or_finite_number (a : sortItem) : Prop :=
  is_nullish (sortValue a) = true ∨ ∃ q, sortValue a = num (Fin q).

(** Where the default comparator puts such an item: nulls first, then by
    number, then by index. *)
Definition default_position (a : sortItem) : bool * Qc * nat :=
  match sortValue a with
  | Prim (PNum (Fin q)) => (true, q, index a)
  | _ => (false, 0%Qc, index a)
  end.

Section NumericKeys.
Context `{Host}.

(** A key the numeric comparators are made for: null, or one that reads as
    a finite number. *)
Definition well_formed_numeric (a : sortItem) : Prop :=
  is_nullish (sortValue a) = true
  ∨ Number.is_finite (parseFloat (sortValue a)) = true.

(** Where the numeric comparator puts an item: by number, nulls last, then
    by index. *)
Definition numeric_position (a : sortItem) : option Qc * nat :=
  (if is_nullish (sortValue a) then None
   else match parseFloat (sortValue a) with
        | Fin q => Some q
        | _ => None
        end,
   index a).

End NumericKeys.


(** ** Sample tables *)

Module Sample.

Definition plain_column (id : string) (type : option DataType.t) : column_def :=
  {| column_id := id; column_value := AccUndefined; column_sortValue := None;
     column_type := type; column_sortType := None |}.

Definition record (ref : positive) (key : string) (v : value) : row :=
  {| row_ref := ref; row_props := {[ key := v ]} |}.

Definition integer (z : Z) : value := num (Number.of_Z z).
Definition infinity : value := num (Inf false).

(** [[{id: 3}, {id: 1}, {id: 2}]] *)
Definition three_rows : list row :=
  [ record 11 "id" (integer 3); record 12 "id" (integer 1);
    record 13 "id" (integer 2) ].

(** [[{n: 7}, {n: null}, {n: 7}, {n: 2}]] *)
Definition tied_rows : list row :=
  [ record 21 "n" (integer 7); record 22 "n" null;
    record 23 "n" (integer 7); record 24 "n" (integer 2) ].

(** [[{n: 'b'}, {n: 'a'}, {n: 'a'}]] *)
Definition text_rows : list row :=
  [ record 41 "n" (str "b"); record 42 "n" (str "a");
    record 43 "n" (str "a") ].

(** [[{n: Infinity}, {n: Infinity}]] *)
Definition infinite_rows : list row :=
  [ record 31 "n" infinity; record 32 "n" infinity ].

(** A store in which the array [1] holds [rows]; the console is empty. *)
Definition table (rows : list row) : world :=
  {| arrays := {[ 1%positive := rows ]}; console := []; production := false |}.

Definition item (i : nat) (key : value) : sortItem :=
  {| rowData := record 1 "n" key; index := i; sortValue := key |}.

(** The column [n] as a [Number] column and as a [String] column. *)
Definition number_column : column_def := plain_column "n" (Some DataType.Number).
Definition text_column : column_def := plain_column "n" (Some DataType.String).

(** [[{id: 'a'}, {id: 'constructor'}, {id: 'a'}]] as columns *)
Definition columns_with_inherited_name : list column_def :=
  [ plain_column "a" None; plain_column "constructor" None;
    plain_column "a" None ].

(** [[{id: 'name'}, {id: 'price'}]] as columns *)
Definition distinct_columns : list column_def :=
  [ plain_column "name" (Some DataType.String);
    plain_column "price" (Some DataType.Number) ].

(** The identities of the rows in the array a call returned. *)
Definition returned_rows (result : outcome loc) : list loc :=
  match result with
  | Return a w => row_ref <$> default [] (arrays w !! a)
  | Throw _ _ => []
  | Unmodelled => []
  end.

End Sample.

(** * Properties *)

(** ** Numbers *)

Lemma Qc_of_Z_minus (a b : Z) : (Qc_of_Z a - Qc_of_Z b)%Qc = Qc_of_Z (a - b).
Proof.
  apply Qc_is_canon. unfold Qcminus, Qcplus, Qcopp, Qc_of_Z, Q2Qc. simpl.
  rewrite !Qred_correct. unfold Qeq, Qplus, Qopp, inject_Z. simpl. lia.
Qed.

Lemma Qc_of_Z_lt (a b : Z) : (Qc_of_Z a < Qc_of_Z b)%Qc ↔ a < b.
Proof. unfold Qclt, Qc_of_Z, Qlt, inject_Z. simpl. lia. Qed.

Lemma number_sub_of_Z (a b : Z) :
  (Number.of_Z a - Number.of_Z b)%num = Number.of_Z (a - b).
Proof. unfold Number.of_Z. simpl. by rewrite Qc_of_Z_minus. Qed.

Lemma number_negative_of_Z (z : Z) :
  Number.is_negative (Number.of_Z z) = true ↔ z < 0.
Proof.
  unfold Number.is_negative, Number.of_Z, Number.zero. simpl.
  rewrite bool_decide_eq_true. apply (Qc_of_Z_lt z 0).
Qed.

Lemma number_positive_of_Z (z : Z) :
  Number.is_positive (Number.of_Z z) = true ↔ 0 < z.
Proof.
  unfold Number.is_positive, Number.of_Z, Number.zero. simpl.
  rewrite bool_decide_eq_true. apply (Qc_of_Z_lt 0 z).
Qed.

(** A number is not both below and above zero. *)
Lemma number_negative_positive (x : number) :
  Number.is_negative x = true → Number.is_positive x = true → False.
Proof.
  destruct x as [|[]|q]; simpl; try done.
  unfold Number.is_negative, Number.is_positive, Number.zero. simpl.
  rewrite !bool_decide_eq_true. intros ? ?.
  by apply (Qclt_not_le q 0%Qc); [|apply Qclt_le_weak].
Qed.

(** Subtracting a finite number from itself gives zero. *)
Lemma number_sub_diag_finite (x : number) :
  Number.is_finite x = true → (x - x)%num = Number.zero.
Proof.
  destruct x as [| |q]; try done. intros _. simpl.
  unfold Number.zero. f_equal. ring.
Qed.

(** ... and only then: for the other numbers the difference is [NaN]. *)
Lemma number_sub_diag_not_finite (x : number) :
  Number.is_finite x = false → (x - x)%num = NaN.
Proof. destruct x as [|[]|q]; done. Qed.

(** ** Consistent comparators *)

Section ConsistentFacts.
Context {A : Type} (comparefn : A → A → number) (S : list A).
Hypothesis consistent : consistent_on comparefn S.

Lemma cf_lt_flip (a b : A) :
  a ∈ S → b ∈ S → cf_lt comparefn a b = true → cf_gt comparefn b a = true.
Proof.
  intros Ha Hb Hlt.
  destruct (cf_gt comparefn b a) eqn:Hgt; [done|].
  destruct (cf_lt comparefn b a) eqn:Hlt'.
  - pose proof (cf_lt_trans _ _ consistent a b a Ha Hb Ha Hlt Hlt') as Haa.
    pose proof (cf_refl _ _ consistent a Ha) as Hrefl.
    unfold cf_eq in Hrefl. rewrite Haa in Hrefl. done.
  - assert (cf_eq comparefn b a = true) as Heq
      by (unfold cf_eq; by rewrite Hlt', Hgt).
    apply (cf_sym _ _ consistent) in Heq; [|done..].
    unfold cf_eq in Heq. rewrite Hlt in Heq. done.
Qed.

Lemma cf_gt_flip (a b : A) :
  a ∈ S → b ∈ S → cf_gt comparefn a b = true → cf_lt comparefn b a = true.
Proof.
  intros Ha Hb Hgt.
  destruct (cf_lt comparefn b a) eqn:Hlt; [done|].
  destruct (cf_gt comparefn b a) eqn:Hgt'.
  - pose proof (cf_gt_trans _ _ consistent a b a Ha Hb Ha Hgt Hgt') as Haa.
    pose proof (cf_refl _ _ consistent a Ha) as Hrefl.
    unfold cf_eq in Hrefl. rewrite Haa, andb_false_r in Hrefl. done.
  - assert (cf_eq comparefn b a = true) as Heq
      by (unfold cf_eq; by rewrite Hlt, Hgt').
    apply (cf_sym _ _ consistent) in Heq; [|done..].
    unfold cf_eq in Heq. rewrite Hgt, andb_false_r in Heq. done.
Qed.

End ConsistentFacts.

Lemma consistentb_sound {A : Type} (comparefn : A → A → number) (S : list A) :
  consistentb comparefn S = true → consistent_on comparefn S.
Proof.
  unfold consistentb. rewrite forallb_forall. intros HS.
  assert (∀ a b c, a ∈ S → b ∈ S → c ∈ S →
            cf_eq comparefn a a = true ∧
            Number.is_nan (comparefn a b) = false ∧
            (cf_eq comparefn a b = true → cf_eq comparefn b a = true) ∧
            (cf_eq comparefn a b = true → cf_eq comparefn b c = true →
             cf_eq comparefn a c = true) ∧
            (cf_lt comparefn a b = true → cf_lt comparefn b c = true →
             cf_lt comparefn a c = true) ∧
            (cf_gt comparefn a b = true → cf_gt comparefn b c = true →
             cf_gt comparefn a c = true)) as Hall.
  { intros a b c Ha%list_elem_of_In Hb%list_elem_of_In Hc%list_elem_of_In.
    specialize (HS a Ha). apply andb_true_iff in HS as [Hrefl HS].
    rewrite forallb_forall in HS. specialize (HS b Hb).
    apply andb_true_iff in HS as [HS Hc'].
    apply andb_true_iff in HS as [Hnan Hsym].
    rewrite forallb_forall in Hc'. specialize (Hc' c Hc).
    apply andb_true_iff in Hc' as [Hc' Hgt].
    apply andb_true_iff in Hc' as [Heq Hlt].
    apply negb_true_iff in Hnan.
    repeat split; try done.
    - intros E. by rewrite E in Hsym.
    - intros E1 E2. by rewrite E1, E2 in Heq.
    - intros E1 E2. by rewrite E1, E2 in Hlt.
    - intros E1 E2. by rewrite E1, E2 in Hgt. }
  split.
  - intros a b Ha Hb. by destruct (Hall a b a Ha Hb Ha) as (_ & ? & _).
  - intros a Ha. by destruct (Hall a a a Ha Ha Ha) as (? & _).
  - intros a b Ha Hb. by destruct (Hall a b a Ha Hb Ha) as (_ & _ & ? & _).
  - intros a b c Ha Hb Hc.
    by destruct (Hall a b c Ha Hb Hc) as (_ & _ & _ & ? & _).
  - intros a b c Ha Hb Hc.
    by destruct (Hall a b c Ha Hb Hc) as (_ & _ & _ & _ & ? & _).
  - intros a b c Ha Hb Hc.
    by destruct (Hall a b c Ha Hb Hc) as (_ & _ & _ & _ & _ & ?).
Qed.

(** ** The reference engine meets the contract *)

Section InsertionSort.
Context {A : Type} (comparefn : A → A → number).

Lemma insert_perm (x : A) (l : list A) : Engine.insert comparefn x l ≡ₚ x :: l.
Proof.
  induction l as [|y l IH]; simpl; [done|].
  destruct (cf_gt comparefn y x); [done|].
  rewrite IH. apply Permutation_swap.
Qed.

Lemma insertion_sort_perm (l : list A) :
  Engine.insertion_sort A comparefn l ≡ₚ l.
Proof.
  unfold Engine.insertion_sort.
  assert (∀ acc, fold_left (λ sorted x, Engine.insert comparefn x sorted) l acc
                 ≡ₚ l ++ acc) as Hgen.
  { induction l as [|x l IH]; intros acc; simpl; [done|].
    rewrite IH, insert_perm. by rewrite Permutation_middle. }
  by rewrite Hgen, app_nil_r.
Qed.

Let before (a b : A) : Prop := cf_lt comparefn b a = false.

Lemma insert_sorted (S : list A) (x : A) (l : list A) :
  consistent_on comparefn S → x ∈ S → l ⊆ S →
  StronglySorted before l → StronglySorted before (Engine.insert comparefn x l).
Proof.
  intros HC Hx. induction l as [|y l IH]; intros Hl Hsorted; simpl.
  - repeat constructor.
  - assert (y ∈ S) as Hy by (apply Hl; left).
    assert (l ⊆ S) as Hl' by (intros z Hz; apply Hl; by right).
    apply StronglySorted_inv in Hsorted as [Hsorted Hy_all].
    destruct (cf_gt comparefn y x) eqn:Hgt.
    + constructor; [by constructor|].
      pose proof (cf_gt_flip _ _ HC y x Hy Hx Hgt) as Hxy.
      constructor.
      * unfold before. destruct (cf_lt comparefn y x) eqn:Hyx; [|done].
        exfalso. eapply number_negative_positive; [exact Hyx | exact Hgt].
      * rewrite Forall_forall in Hy_all |- *. intros z Hz.
        unfold before. destruct (cf_lt comparefn z x) eqn:Hzx; [|done].
        assert (z ∈ S) as Hz' by by apply Hl'.
        pose proof (cf_lt_trans _ _ HC z x y Hz' Hx Hy Hzx Hxy) as Hzy.
        specialize (Hy_all z Hz). unfold before in Hy_all. congruence.
    + constructor; [by apply IH|].
      rewrite Forall_forall in Hy_all |- *. intros z Hz.
      rewrite insert_perm in Hz. apply elem_of_cons in Hz as [->|Hz].
      * unfold before. destruct (cf_lt comparefn x y) eqn:Hxy; [|done].
        pose proof (cf_lt_flip _ _ HC x y Hx Hy Hxy). congruence.
      * by apply Hy_all.
Qed.

Lemma insertion_sort_strongly_sorted (l : list A) :
  consistent_on comparefn l →
  StronglySorted before (Engine.insertion_sort A comparefn l).
Proof.
  intros HC. unfold Engine.insertion_sort.
  assert (∀ k acc, k ⊆ l → acc ⊆ l → StronglySorted before acc →
            StronglySorted before
              (fold_left (λ sorted x, Engine.insert comparefn x sorted) k acc))
    as Hgen.
  { induction k as [|x k IH]; intros acc Hk Hacc Hsorted; simpl; [done|].
    apply IH.
    - intros z Hz. apply Hk. by right.
    - intros z Hz. rewrite insert_perm in Hz.
      apply elem_of_cons in Hz as [->|Hz]; [apply Hk; left | by apply Hacc].
    - apply (insert_sorted l); [done| apply Hk; left | done | done]. }
  apply Hgen; [done | intros z Hz; by apply elem_of_nil in Hz | constructor].
Qed.

Lemma strongly_sorted_sorted_by (out : list A) :
  StronglySorted before out → sorted_by comparefn out.
Proof.
  induction 1 as [|x out Hsorted IH Hall]; intros i j a b Hi Hj Hij.
  - by rewrite lookup_nil in Hi.
  - destruct j as [|j]; [lia|]. simpl in Hj.
    destruct i as [|i]; simpl in Hi.
    + injection Hi as <-. rewrite Forall_forall in Hall.
      apply Hall. by eapply list_elem_of_lookup_2.
    + apply (IH i j); [done..|lia].
Qed.

Lemma insertion_sort_sorted (l : list A) :
  consistent_on comparefn l →
  sorted_by comparefn (Engine.insertion_sort A comparefn l).
Proof.
  intros HC. by apply strongly_sorted_sorted_by, insertion_sort_strongly_sorted.
Qed.

End InsertionSort.

Section UnstableSort.
Context {A : Type} (comparefn : A → A → number).

Lemma insert_early_perm (x : A) (l : list A) :
  Engine.insert_early comparefn x l ≡ₚ x :: l.
Proof.
  induction l as [|y l IH]; simpl; [done|].
  destruct (cf_lt comparefn y x); [|done].
  rewrite IH. apply Permutation_swap.
Qed.

Lemma unstable_sort_perm (l : list A) : Engine.unstable_sort A comparefn l ≡ₚ l.
Proof.
  unfold Engine.unstable_sort.
  assert (∀ acc,
            fold_left (λ sorted x, Engine.insert_early comparefn x sorted) l acc
            ≡ₚ l ++ acc) as Hgen.
  { induction l as [|x l IH]; intros acc; simpl; [done|].
    rewrite IH, insert_early_perm. by rewrite Permutation_middle. }
  by rewrite Hgen, app_nil_r.
Qed.

Let before (a b : A) : Prop := cf_lt comparefn b a = false.

(** "Not [<CF]" is transitive for a consistent comparator. *)
Lemma cf_not_lt_trans (S : list A) (x y z : A) :
  consistent_on comparefn S → x ∈ S → y ∈ S → z ∈ S →
  cf_lt comparefn z y = false → cf_lt comparefn y x = false →
  cf_lt comparefn z x = false.
Proof.
  intros HC Hx Hy Hz Hzy Hyx.
  destruct (cf_lt comparefn z x) eqn:Hzx; [exfalso|done].
  destruct (cf_gt comparefn y x) eqn:Hgt_yx.
  - pose proof (cf_gt_flip _ _ HC y x Hy Hx Hgt_yx) as Hxy.
    pose proof (cf_lt_trans _ _ HC z x y Hz Hx Hy Hzx Hxy). congruence.
  - assert (cf_eq comparefn y x = true) as Heq_yx
      by (unfold cf_eq; by rewrite Hyx, Hgt_yx).
    destruct (cf_gt comparefn z y) eqn:Hgt_zy.
    + pose proof (cf_gt_flip _ _ HC z y Hz Hy Hgt_zy) as Hyz.
      pose proof (cf_lt_trans _ _ HC y z x Hy Hz Hx Hyz Hzx). congruence.
    + assert (cf_eq comparefn z y = true) as Heq_zy
        by (unfold cf_eq; by rewrite Hzy, Hgt_zy).
      pose proof (cf_eq_trans _ _ HC z y x Hz Hy Hx Heq_zy Heq_yx) as Heq_zx.
      unfold cf_eq in Heq_zx. by rewrite Hzx in Heq_zx.
Qed.

Lemma insert_early_sorted (S : list A) (x : A) (l : list A) :
  consistent_on comparefn S → x ∈ S → l ⊆ S →
  StronglySorted before l →
  StronglySorted before (Engine.insert_early comparefn x l).
Proof.
  intros HC Hx. induction l as [|y l IH]; intros Hl Hsorted; simpl.
  - repeat constructor.
  - assert (y ∈ S) as Hy by (apply Hl; left).
    assert (l ⊆ S) as Hl' by (intros z Hz; apply Hl; by right).
    apply StronglySorted_inv in Hsorted as [Hsorted Hy_all].
    rewrite Forall_forall in Hy_all.
    destruct (cf_lt comparefn y x) eqn:Hyx.
    + constructor; [by apply IH|].
      rewrite Forall_forall. intros z Hz.
      rewrite insert_early_perm in Hz. apply elem_of_cons in Hz as [->|Hz].
      * unfold before. destruct (cf_lt comparefn x y) eqn:Hxy; [|done].
        pose proof (cf_lt_flip _ _ HC x y Hx Hy Hxy) as Hgt.
        exfalso. eapply number_negative_positive; [exact Hyx | exact Hgt].
      * by apply Hy_all.
    + constructor; [by constructor; [|apply Forall_forall]|].
      constructor; [done|].
      rewrite Forall_forall. intros z Hz. unfold before.
      apply (cf_not_lt_trans S x y z); [done..| by apply Hl' | | done].
      by apply Hy_all.
Qed.

Lemma unstable_sort_sorted (l : list A) :
  consistent_on comparefn l →
  sorted_by comparefn (Engine.unstable_sort A comparefn l).
Proof.
  intros HC. apply strongly_sorted_sorted_by. unfold Engine.unstable_sort.
  assert (∀ k acc, k ⊆ l → acc ⊆ l → StronglySorted before acc →
            StronglySorted before
              (fold_left (λ sorted x, Engine.insert_early comparefn x sorted)
                         k acc)) as Hgen.
  { induction k as [|x k IH]; intros acc Hk Hacc Hsorted; simpl; [done|].
    apply IH.
    - intros z Hz. apply Hk. by right.
    - intros z Hz. rewrite insert_early_perm in Hz.
      apply elem_of_cons in Hz as [->|Hz]; [apply Hk; left | by apply Hacc].
    - apply (insert_early_sorted l); [done| apply Hk; left | done | done]. }
  apply Hgen; [done | intros z Hz; by apply elem_of_nil in Hz | constructor].
Qed.

End UnstableSort.

Lemma engine_localeCompare_refl (s : string) :
  Engine.localeCompare s s = Number.zero.
Proof.
  unfold Engine.localeCompare.
  destruct (String.compare s s) eqn:E; [done| |].
  - pose proof (String.compare_antisym s s) as Ha. rewrite E in Ha. done.
  - pose proof (String.compare_antisym s s) as Ha. rewrite E in Ha. done.
Qed.

#[global] Instance reference_engine : Host := {|
  host_parseFloat := Engine.parseFloat_text;
  host_number_to_string := Engine.number_to_string;
  host_string_to_number := Engine.string_to_number;
  host_to_primitive := Engine.to_primitive;
  host_toLowerCase := Engine.toLowerCase;
  host_localeCompare := Engine.localeCompare;
  host_code_unit_lt := Engine.code_unit_lt;
  host_sort := Engine.insertion_sort;
  host_localeCompare_refl := engine_localeCompare_refl;
  host_sort_perm := @insertion_sort_perm;
  host_sort_sorted := @insertion_sort_sorted;
|}.

(** The same engine with the sorting algorithm that is not stable. *)
Definition unstable_engine : Host := {|
  host_parseFloat := Engine.parseFloat_text;
  host_number_to_string := Engine.number_to_string;
  host_string_to_number := Engine.string_to_number;
  host_to_primitive := Engine.to_primitive;
  host_toLowerCase := Engine.toLowerCase;
  host_localeCompare := Engine.localeCompare;
  host_code_unit_lt := Engine.code_unit_lt;
  host_sort := Engine.unstable_sort;
  host_localeCompare_refl := engine_localeCompare_refl;
  host_sort_perm := @unstable_sort_perm;
  host_sort_sorted := @unstable_sort_sorted;
|}.

(** ** Cell data and sort values *)

(** C5.  [getCellData] resolves the cell in this order: a function in
    [column.value] is called with the row, its index, all rows and all
    columns and its result returned; otherwise a non-null [column.value] is
    used as the key into the row; otherwise [column.id] is the key. *)
Theorem getCellData_resolution `{Callbacks} (column : column_def)
    (rowData : row) (rowNumber : nat) (tableData : list row)
    (columns : list column_def) :
  (∀ f, column_value column = AccFunction f →
        getCellData column rowData rowNumber tableData columns
        = call_value f rowData rowNumber tableData columns)
  ∧ (∀ key, column_value column = AccKey key →
        getCellData column rowData rowNumber tableData columns
        = row_get rowData key)
  ∧ (column_value column = AccNull ∨ column_value column = AccUndefined →
        getCellData column rowData rowNumber tableData columns
        = row_get rowData (column_id column)).
Proof.
  unfold getCellData. repeat split.
  - by intros f ->.
  - by intros key ->.
  - by intros [-> | ->].
Qed.

(** C6.  [getSortValueFromCellData] returns [column.sortValue(cellData,
    rowData)] when the column has a [sortValue], and the cell data itself
    when it has none.  The function has no access to the store or the
    console: its result is all it produces. *)
Theorem getSortValueFromCellData_spec `{Callbacks} (cellData : value)
    (column : column_def) (rowData : row) :
  (∀ f, column_sortValue column = Some f →
        getSortValueFromCellData cellData column rowData
        = call_sortValue f cellData rowData)
  ∧ (column_sortValue column = None →
        getSortValueFromCellData cellData column rowData = cellData).
Proof.
  unfold getSortValueFromCellData. split.
  - by intros f ->.
  - by intros ->.
Qed.

(** ** Column lookup *)

Lemma getColumnById_None (columns : list column_def) (columnId : string) :
  getColumnById columns columnId = None
  ↔ Forall (λ c, column_id c ≠ columnId) columns.
Proof.
  unfold getColumnById. induction columns as [|c columns IH]; simpl.
  - split; [constructor | done].
  - rewrite Forall_cons. case_bool_decide as Hid.
    + split; [done | by intros [? _]].
    + rewrite IH. split; [by intros ? | by intros [_ ?]].
Qed.

Lemma getColumnById_Some (columns : list column_def) (columnId : string)
    (column : column_def) :
  getColumnById columns columnId = Some column
  ↔ ∃ before after,
      columns = before ++ column :: after
      ∧ column_id column = columnId
      ∧ Forall (λ c, column_id c ≠ columnId) before.
Proof.
  unfold getColumnById. induction columns as [|c columns IH]; simpl.
  - split; [done | intros ([|??] & ? & ? & _); done].
  - case_bool_decide as Hid.
    + split.
      * intros [= <-]. by exists [], columns.
      * intros ([|c' before] & after & Heq & Hc & Hbefore); simpl in Heq.
        -- by injection Heq as -> _.
        -- injection Heq as <- _. by apply Forall_cons in Hbefore as [? _].
    + rewrite IH. split.
      * intros (before & after & -> & Hc & Hbefore).
        exists (c :: before), after. by rewrite Forall_cons.
      * intros ([|c' before] & after & Heq & Hc & Hbefore); simpl in Heq.
        -- injection Heq as -> _. done.
        -- injection Heq as <- ->. apply Forall_cons in Hbefore as [_ ?].
           by exists before, after.
Qed.

(** C8.  [getColumnById] returns the first column, in the order of the
    collection, whose [id] is the target, and nothing when no column has
    that [id]; when several columns share the [id] the earliest wins, and
    nothing is reported. *)
Theorem getColumnById_first_match (columns : list column_def)
    (columnId : string) :
  match getColumnById columns columnId with
  | Some column =>
      ∃ before after,
        columns = before ++ column :: after
        ∧ column_id column = columnId
        ∧ Forall (λ c, column_id c ≠ columnId) before
  | None => Forall (λ c, column_id c ≠ columnId) columns
  end.
Proof.
  destruct (getColumnById columns columnId) as [column|] eqn:E.
  - by apply getColumnById_Some.
  - by apply getColumnById_None.
Qed.

(** ** Comparators *)

(** C3.  When exactly one of the two sort keys is null or missing, the
    comparators for [Number] and [NumberOrdinal] rank the item with the
    null key greater (it sorts last ascending), and the comparator for
    [String] and the default comparator rank it lesser (it sorts first
    ascending), whichever side the null key is on. *)
Theorem null_key_policy `{Host} (type : option DataType.t) (a b : sortItem) :
  is_nullish (sortValue a) = true →
  is_nullish (sortValue b) = false →
  match type with
  | Some DataType.Number | Some DataType.NumberOrdinal =>
      getSortComparator type a b = Number.one
      ∧ getSortComparator type b a = Number.minus_one
      ∧ cf_gt (getSortComparator type) a b = true
      ∧ cf_lt (getSortComparator type) b a = true
  | _ =>
      getSortComparator type a b = Number.minus_one
      ∧ getSortComparator type b a = Number.one
      ∧ cf_lt (getSortComparator type) a b = true
      ∧ cf_gt (getSortComparator type) b a = true
  end.
Proof.
  intros Ha Hb.
  destruct type as [[| | |name]|]; unfold cf_gt, cf_lt; simpl;
    unfold numberComparator, stringComparator, defaultComparator;
    rewrite Ha, Hb; simpl; done.
Qed.

(** ** Ties *)

Lemma strict_equals_eq (a b : value) : strict_equals a b = true → a = b.
Proof.
  destruct a as [[| |x|x|x]|x], b as [[| |y|y|y]|y]; simpl; try done.
  - intros ->%Bool.eqb_prop. done.
  - destruct x as [|s|p], y as [|t|q]; simpl; try done.
    + intros ->%Bool.eqb_prop. done.
    + intros ->%bool_decide_eq_true. done.
  - intros ->%bool_decide_eq_true. done.
  - intros ->%bool_decide_eq_true. done.
Qed.

Lemma index_difference_of_Z (a b : sortItem) :
  index_difference a b = Number.of_Z (Z.of_nat (index a) - Z.of_nat (index b)).
Proof. unfold index_difference, Number.of_nat. apply number_sub_of_Z. Qed.

(** [a.index - b.index] is negative when [a] comes first, positive when
    [b] does, and zero for the same position. *)
Lemma index_difference_negative (a b : sortItem) :
  Number.is_negative (index_difference a b) = true ↔ (index a < index b)%nat.
Proof. rewrite index_difference_of_Z, number_negative_of_Z. lia. Qed.

Lemma index_difference_positive (a b : sortItem) :
  Number.is_positive (index_difference a b) = true ↔ (index b < index a)%nat.
Proof. rewrite index_difference_of_Z, number_positive_of_Z. lia. Qed.

Lemma equal_keys_index_difference `{Host} (type : option DataType.t)
    (a b : sortItem) :
  keys_equal a b = true →
  (numeric type = true → is_nullish (sortValue a) = false →
   Number.is_finite (parseFloat (sortValue a)) = true) →
  getSortComparator type a b = index_difference a b.
Proof.
  unfold keys_equal. intros Hequal Hfinite.
  destruct (is_nullish (sortValue a)) eqn:Ha.
  - assert (is_nullish (sortValue b) = true) as Hb.
    { apply orb_true_iff in Hequal as [Hb | Hsame%strict_equals_eq].
      - by apply andb_true_iff in Hb as [_ ?].
      - by rewrite <- Hsame. }
    destruct type as [[| | |name]|]; simpl;
      unfold numberComparator, stringComparator, defaultComparator;
      by rewrite Ha, Hb.
  - simpl in Hequal. pose proof Hequal as Hsame%strict_equals_eq.
    destruct type as [[| | |name]|]; simpl;
      unfold numberComparator, stringComparator, defaultComparator;
      rewrite <- Hsame, Ha; simpl.
    + rewrite number_sub_diag_finite by by apply Hfinite. done.
    + rewrite number_sub_diag_finite by by apply Hfinite. done.
    + by rewrite host_localeCompare_refl.
    + rewrite <- Hsame in Hequal. by rewrite Hequal.
    + rewrite <- Hsame in Hequal. by rewrite Hequal.
Qed.

(** X1.  Equal keys are ordered by index, by every comparator, provided
    that under the numeric comparators the key, when it is not null, reads
    as a finite number: the result is [a.index - b.index], negative when
    [a] comes first and positive when [b] does. *)
Theorem equal_keys_ordered_by_index `{Host} (type : option DataType.t)
    (a b : sortItem) :
  keys_equal a b = true →
  (numeric type = true → is_nullish (sortValue a) = false →
   Number.is_finite (parseFloat (sortValue a)) = true) →
  getSortComparator type a b = index_difference a b
  ∧ (cf_lt (getSortComparator type) a b = true ↔ (index a < index b)%nat)
  ∧ (cf_gt (getSortComparator type) a b = true ↔ (index b < index a)%nat).
Proof.
  intros Hequal Hfinite. unfold cf_lt, cf_gt.
  rewrite (equal_keys_index_difference type a b Hequal Hfinite).
  split; [done|]. split.
  - apply index_difference_negative.
  - apply index_difference_positive.
Qed.

(** C1.  The claim is that every comparator orders two items with equal
    sort keys by their index.  The numeric comparator does not when the
    equal keys are [Infinity]: the difference of the two keys is [NaN],
    which is not [0], so the comparator returns [NaN] and says nothing
    about the order of the two items, in either direction. *)
Theorem numberComparator_equal_infinite_keys `{Host} :
  keys_equal (Sample.item 0 Sample.infinity) (Sample.item 1 Sample.infinity)
  = true
  ∧ getSortComparator (Some DataType.Number)
      (Sample.item 0 Sample.infinity) (Sample.item 1 Sample.infinity) = NaN
  ∧ getSortComparator (Some DataType.Number)
      (Sample.item 1 Sample.infinity) (Sample.item 0 Sample.infinity) = NaN
  ∧ getSortComparator (Some DataType.NumberOrdinal)
      (Sample.item 0 Sample.infinity) (Sample.item 1 Sample.infinity) = NaN
  ∧ cf_lt (getSortComparator (Some DataType.Number))
      (Sample.item 0 Sample.infinity) (Sample.item 1 Sample.infinity) = false.
Proof. repeat split. Qed.

(** The same happens for any two equal keys that do not read as a finite
    number, such as the text ['abc'] twice. *)
Lemma numberComparator_equal_keys_not_finite `{Host} (a b : sortItem) :
  sortValue a = sortValue b →
  is_nullish (sortValue a) = false →
  Number.is_finite (parseFloat (sortValue a)) = false →
  numberComparator a b = NaN.
Proof.
  intros Hsame Ha Hnot. unfold numberComparator. rewrite <- Hsame, Ha. simpl.
  by rewrite number_sub_diag_not_finite.
Qed.

(** The default comparator and the key [NaN], which is not [===] to
    itself: each of the two items is ranked after the other. *)
Example defaultComparator_nan_keys `{Host} :
  getSortComparator None (Sample.item 0 (num NaN)) (Sample.item 1 (num NaN))
  = Number.one
  ∧ getSortComparator None (Sample.item 1 (num NaN)) (Sample.item 0 (num NaN))
    = Number.one.
Proof. split; reflexivity. Qed.

(** Two texts under the default comparator go by their code units, not by
    their code points: U+FF21 is one unit, U+1F600 is a surrogate pair whose
    first unit is the smaller, so ['Ａ' < '😀'] is false.  Upper case comes
    before lower case. *)
Example defaultComparator_text_by_code_units :
  getSortComparator None (Sample.item 0 (str "Ａ")) (Sample.item 1 (str "😀"))
  = Number.one
  ∧ getSortComparator None (Sample.item 0 (str "B")) (Sample.item 1 (str "a"))
    = Number.minus_one.
Proof. split; by vm_compute. Qed.

(** ** The numeric comparator is consistent on well-formed keys *)

(** A comparator that reads off a strict total order is consistent. *)
Lemma consistent_of_strict_order {A B : Type} (comparefn : A → A → number)
    (position : A → B) (R : relation B) `{!StrictOrder R, !Trichotomy R}
    (S : list A) :
  (∀ a b, a ∈ S → b ∈ S → Number.is_nan (comparefn a b) = false) →
  (∀ a b, a ∈ S → b ∈ S →
     cf_lt comparefn a b = true ↔ R (position a) (position b)) →
  (∀ a b, a ∈ S → b ∈ S →
     cf_gt comparefn a b = true ↔ R (position b) (position a)) →
  consistent_on comparefn S.
Proof.
  intros Hnan Hlt Hgt.
  assert (∀ a b, a ∈ S → b ∈ S →
            cf_eq comparefn a b = true ↔ position a = position b) as Heq.
  { intros a b Ha Hb. unfold cf_eq.
    rewrite andb_true_iff, !negb_true_iff, <- !not_true_iff_false.
    rewrite (Hlt a b Ha Hb), (Hgt a b Ha Hb). split.
    - intros [Hab Hba].
      by destruct (trichotomy R (position a) (position b)) as [?|[?|?]].
    - intros ->. split; apply irreflexivity, _. }
  split.
  - done.
  - intros a Ha. by apply Heq.
  - intros a b Ha Hb. rewrite !Heq by done. done.
  - intros a b c Ha Hb Hc. rewrite !Heq by done. congruence.
  - intros a b c Ha Hb Hc. rewrite !Hlt by done. apply transitivity.
  - intros a b c Ha Hb Hc. rewrite !Hgt by done. intros ? ?. by etrans.
Qed.

#[global] Instance rank_lexico_po : StrictOrder (@lexico (option Qc) _).
Proof.
  split.
  - intros [p|] Hp; unfold lexico, rank_lexico in Hp; [|done].
    by apply (irreflexivity Qclt p).
  - intros [p|] [q|] [r|]; unfold lexico, rank_lexico; try done.
    apply (transitivity (R := Qclt)).
Qed.

#[global] Instance rank_lexico_trichotomy : TrichotomyT (@lexico (option Qc) _).
Proof.
  intros [p|] [q|]; unfold lexico, rank_lexico.
  - destruct (Qc_dec p q) as [[Hlt|Hgt]|Heq].
    + left. by left.
    + by right.
    + left. right. by f_equal.
  - left. by left.
  - by right.
  - left. by right.
Defined.

Lemma Qcminus_eq_0 (p q : Qc) : (p - q)%Qc = 0%Qc ↔ p = q.
Proof.
  split.
  - intros E. replace p with ((p - q) + q)%Qc by ring. rewrite E. ring.
  - intros ->. ring.
Qed.

Lemma Qcminus_lt_0 (p q : Qc) : (p - q < 0)%Qc ↔ (p < q)%Qc.
Proof.
  rewrite (Qcplus_lt_mono_r (p - q) 0 q).
  by replace (p - q + q)%Qc with p by ring; replace (0 + q)%Qc with q by ring.
Qed.

Lemma Qcminus_gt_0 (p q : Qc) : (0 < p - q)%Qc ↔ (q < p)%Qc.
Proof.
  rewrite (Qcplus_lt_mono_r 0 (p - q) q).
  by replace (p - q + q)%Qc with p by ring; replace (0 + q)%Qc with q by ring.
Qed.

Section NumericOrder.
Context `{Host}.

(** The branches of the numeric comparator. *)
Lemma numberComparator_cases (a b : sortItem) :
  numberComparator a b
  = match is_nullish (sortValue a), is_nullish (sortValue b) with
    | true, true => index_difference a b
    | true, false => Number.one
    | false, true => Number.minus_one
    | false, false =>
        let difference := (parseFloat (sortValue a) - parseFloat (sortValue b))%num in
        if Number.strict_eq difference Number.zero then index_difference a b
        else difference
    end.
Proof.
  unfold numberComparator.
  by destruct (is_nullish (sortValue a)), (is_nullish (sortValue b)).
Qed.

Lemma numberComparator_reads_position (a b : sortItem) :
  well_formed_numeric a → well_formed_numeric b →
  Number.is_nan (numberComparator a b) = false
  ∧ (cf_lt numberComparator a b = true
     ↔ lexico (numeric_position a) (numeric_position b))
  ∧ (cf_gt numberComparator a b = true
     ↔ lexico (numeric_position b) (numeric_position a)).
Proof.
  intros Ha Hb.
  unfold cf_lt, cf_gt, numeric_position, lexico, prod_lexico.
  rewrite numberComparator_cases. cbn [fst snd].
  destruct (is_nullish (sortValue a)) eqn:Hna,
           (is_nullish (sortValue b)) eqn:Hnb.
  - rewrite index_difference_negative, index_difference_positive.
    rewrite index_difference_of_Z. unfold lexico, rank_lexico, nat_lexico.
    split; [done|]. split; split; [tauto | intros [[]|[_ ?]]; done | tauto | intros [[]|[_ ?]]; done].
  - destruct Hb as [Hb|Hb]; [congruence|].
    destruct (parseFloat (sortValue b)) as [| |q]; try done.
    unfold lexico, rank_lexico.
    split; [done|]. split; split.
    + by intros ?.
    + by intros [[]|[? _]].
    + intros _. by left.
    + by intros _.
  - destruct Ha as [Ha|Ha]; [congruence|].
    destruct (parseFloat (sortValue a)) as [| |p]; try done.
    unfold lexico, rank_lexico.
    split; [done|]. split; split.
    + intros _. by left.
    + by intros _.
    + by intros ?.
    + by intros [[]|[? _]].
  - destruct Ha as [Ha|Ha]; [congruence|]. destruct Hb as [Hb|Hb]; [congruence|].
    destruct (parseFloat (sortValue a)) as [| |p]; try done.
    destruct (parseFloat (sortValue b)) as [| |q]; try done.
    cbn [Number.sub Number.strict_eq Number.zero]. cbv zeta.
    unfold lexico, rank_lexico, nat_lexico.
    case_bool_decide as Hpq.
    + apply Qcminus_eq_0 in Hpq as ->.
      rewrite index_difference_negative, index_difference_positive.
      rewrite index_difference_of_Z.
      pose proof (irreflexivity Qclt q) as Hqq.
      split; [done|]. split; split.
      * intros ?. by right.
      * by intros [?|[_ ?]].
      * intros ?. by right.
      * by intros [?|[_ ?]].
    + unfold Number.is_negative, Number.is_positive, Number.zero.
      cbn [Number.lt Number.is_nan].
      rewrite !bool_decide_eq_true, Qcminus_lt_0, Qcminus_gt_0.
      rewrite Qcminus_eq_0 in Hpq.
      split; [done|]. split; split.
      * intros ?. by left.
      * intros [?|[E _]]; [done|]. by injection E.
      * intros ?. by left.
      * intros [?|[E _]]; [done|]. by injection E.
Qed.

(** X5.  On items whose keys are all null or finite numbers the numeric
    comparator is a consistent comparison function: it never returns
    [NaN], its ties form an equivalence, and [<CF] and [>CF] are
    transitive. *)
Theorem numberComparator_consistent (S : list sortItem) :
  Forall well_formed_numeric S → consistent_on numberComparator S.
Proof.
  rewrite Forall_forall. intros Hwell.
  apply (consistent_of_strict_order _ numeric_position
           (@lexico (option Qc * nat) _)).
  - intros a b Ha Hb. by apply numberComparator_reads_position; apply Hwell.
  - intros a b Ha Hb. by apply numberComparator_reads_position; apply Hwell.
  - intros a b Ha Hb. by apply numberComparator_reads_position; apply Hwell.
Qed.

End NumericOrder.

(** ** [sortData] *)

Section SortDataFacts.
Context `{Host} `{Callbacks}.

Lemma sortItems_lookup (column : column_def) (data : list row)
    (columns : list column_def) (i : nat) :
  sortItems column data columns !! i
  = (λ r, {| rowData := r; index := i;
             sortValue := getSortValue column r i data columns |})
    <$> data !! i.
Proof. unfold sortItems. by rewrite list_lookup_imap. Qed.

(** Projecting the sort items back gives the rows. *)
Lemma sortItems_rowData (column : column_def) (data : list row)
    (columns : list column_def) :
  rowData <$> sortItems column data columns = data.
Proof.
  apply list_eq. intros i.
  rewrite list_lookup_fmap, sortItems_lookup. by destruct (data !! i).
Qed.

(** What [sortData] does once the column is found: the rows are read, a
    new array receives them in comparator order, and it is reversed in
    place for [Descending]. *)
Lemma sortData_found (data : loc) (columnId : string)
    (sortDirection : SortDirection.t) (columns : list column_def) (w : world)
    (column : column_def) (rows : list row) :
  getColumnById columns columnId = Some column →
  arrays w !! data = Some rows →
  sortData data columnId sortDirection columns w
  = let sortedData := fresh (dom (arrays w)) in
    let ascending :=
      rowData <$> host_sort (getSortComparator (effective_type column))
                            (sortItems column rows columns) in
    Return sortedData
      {| arrays :=
           <[sortedData :=
               match sortDirection with
               | SortDirection.Ascending => ascending
               | SortDirection.Descending => reverse ascending
               end]> (arrays w);
         console := console w;
         production := production w |}.
Proof.
  intros Hcolumn Hrows. unfold sortData. rewrite Hcolumn.
  unfold mbind, M_bind, array_read. rewrite Hrows.
  unfold array_new, effective_type. simpl.
  destruct sortDirection; simpl.
  - unfold mret, M_ret. done.
  - unfold array_reverse. simpl. rewrite lookup_insert_eq.
    unfold mret, M_ret. simpl. by rewrite insert_insert_eq.
Qed.

(** A new array never has the identity of an existing one. *)
Lemma fresh_array_is_new (w : world) : arrays w !! fresh (dom (arrays w)) = None.
Proof. apply not_elem_of_dom, is_fresh. Qed.

End SortDataFacts.

(** C4.  When no column has the target [id], [sortData] returns the input
    row collection itself: no array is created or changed, nothing is
    thrown, and the only effect is the warning on the console, which is
    left out in production. *)
Theorem sortData_unknown_column `{Host} `{Callbacks} (data : loc)
    (columnId : string) (sortDirection : SortDirection.t)
    (columns : list column_def) (w : world) :
  Forall (λ c, column_id c ≠ columnId) columns →
  sortData data columnId sortDirection columns w
  = Return data
      {| arrays := arrays w;
         console := console w ++
           (if production w then [] else [NoColumnFound columnId columns]);
         production := production w |}.
Proof.
  intros Hnone%getColumnById_None. unfold sortData. rewrite Hnone.
  unfold mbind, M_bind, node_env_is_production, mret, M_ret, console_warn.
  destruct w as [arr cons [|]]; simpl; [by rewrite app_nil_r | done].
Qed.

(** For a column that is found, the rows [sortData] returns for
    [Descending] are the rows it returns for [Ascending], reversed as a
    whole, on every engine.  Whether tied rows then come out in the reverse
    of their original order depends on whether the ascending sort kept
    them in order. *)
Theorem sortData_descending_is_reverse `{Host} `{Callbacks} (data : loc)
    (columnId : string) (columns : list column_def) (w : world)
    (column : column_def) (rows : list row) :
  getColumnById columns columnId = Some column →
  arrays w !! data = Some rows →
  ∃ asc w_asc desc w_desc sorted,
    sortData data columnId SortDirection.Ascending columns w = Return asc w_asc
    ∧ sortData data columnId SortDirection.Descending columns w
      = Return desc w_desc
    ∧ arrays w_asc !! asc = Some sorted
    ∧ arrays w_desc !! desc = Some (reverse sorted).
Proof.
  intros Hcolumn Hrows.
  do 5 eexists. split_and!.
  - by apply sortData_found.
  - by apply sortData_found.
  - simpl. apply lookup_insert_eq.
  - simpl. apply lookup_insert_eq.
Qed.

(** C2.  The claim is that under [Descending] rows with equal sort keys
    appear in the reverse of their original order, the descending result
    being the ascending one reversed.  For the rows 31 and 32 of
    [[{n: Infinity}, {n: Infinity}]] and a Number column the comparator
    returns [NaN] and breaks no tie; on an engine whose sorting algorithm is
    correct but not stable the ascending result is 32, 31, and the
    descending result, its reverse, is 31, 32: the two rows with equal keys
    are in their original order, not in the reverse of it. *)
Theorem sortData_descending_infinite_keys_unstable_engine :
  row_ref <$> Sample.infinite_rows = [31; 32]%positive
  ∧ sortValue <$> sortItems Sample.number_column Sample.infinite_rows
                    [Sample.number_column]
    = [Sample.infinity; Sample.infinity]
  ∧ keys_equal (Sample.item 0 Sample.infinity) (Sample.item 1 Sample.infinity)
    = true
  ∧ Sample.returned_rows
      (sortData (H := unstable_engine) 1%positive "n" SortDirection.Ascending
         [Sample.number_column] (Sample.table Sample.infinite_rows))
    = [32; 31]%positive
  ∧ Sample.returned_rows
      (sortData (H := unstable_engine) 1%positive "n" SortDirection.Descending
         [Sample.number_column] (Sample.table Sample.infinite_rows))
    = [31; 32]%positive.
Proof. split_and!; by vm_compute. Qed.

(** C7.  For the column [sortData] resolves, the comparator is
    [getSortComparator] of the effective type, which is [column.sortType]
    when present and [column.type] otherwise: the returned rows are the
    sort items ordered with exactly that comparator, projected back (and
    reversed for [Descending]). *)
Theorem sortData_uses_effective_type `{Host} `{Callbacks} (data : loc)
    (columnId : string) (sortDirection : SortDirection.t)
    (columns : list column_def) (w : world)
    (column : column_def) (rows : list row) :
  getColumnById columns columnId = Some column →
  arrays w !! data = Some rows →
  let type :=
    match column_sortType column with
    | Some sortType => Some sortType
    | None => column_type column
    end in
  let ascending :=
    rowData <$> host_sort (getSortComparator type)
                          (sortItems column rows columns) in
  ∃ sortedData w',
    sortData data columnId sortDirection columns w = Return sortedData w'
    ∧ arrays w' !! sortedData
      = Some (if bool_decide (sortDirection = SortDirection.Descending)
              then reverse ascending else ascending).
Proof.
  intros Hcolumn Hrows type ascending.
  do 2 eexists. split; [by apply sortData_found|].
  simpl. rewrite lookup_insert_eq. by destruct sortDirection.
Qed.

(** C10.  For a column that is found, [sortData] returns a permutation of
    the input rows: the same row records, each as often as in the input.
    The result is a new array; the input array is a different one and
    still holds the rows in their original order. *)
Theorem sortData_permutation `{Host} `{Callbacks} (data : loc)
    (columnId : string) (sortDirection : SortDirection.t)
    (columns : list column_def) (w : world)
    (column : column_def) (rows : list row) :
  getColumnById columns columnId = Some column →
  arrays w !! data = Some rows →
  ∃ sortedData w' sorted,
    sortData data columnId sortDirection columns w = Return sortedData w'
    ∧ arrays w' !! sortedData = Some sorted
    ∧ sorted ≡ₚ rows
    ∧ sortedData ≠ data
    ∧ arrays w !! sortedData = None
    ∧ arrays w' !! data = Some rows
    ∧ console w' = console w.
Proof.
  intros Hcolumn Hrows.
  assert (fresh (dom (arrays w)) ≠ data) as Hnew.
  { intros E. pose proof (fresh_array_is_new w) as Hfresh.
    rewrite E in Hfresh. congruence. }
  do 3 eexists. split_and!.
  - by apply sortData_found.
  - simpl. apply lookup_insert_eq.
  - assert (rowData <$> host_sort (getSortComparator (effective_type column))
                                  (sortItems column rows columns) ≡ₚ rows)
      as Hperm by (by rewrite host_sort_perm, sortItems_rowData).
    destruct sortDirection; [done | by rewrite reverse_Permutation].
  - done.
  - apply fresh_array_is_new.
  - simpl. by rewrite lookup_insert_ne.
  - done.
Qed.

(** ** Stability of [sortData] under a consistent comparator *)

Section Stability.
Context `{Host} `{Callbacks}.

(** In a sorted output, an element that is [<CF] another one stands before
    it. *)
Lemma sorted_by_lt_before {A : Type} (comparefn : A → A → number)
    (out : list A) (p q : nat) (x y : A) :
  sorted_by comparefn out →
  out !! p = Some x → out !! q = Some y →
  cf_lt comparefn x y = true → cf_lt comparefn x x = false →
  (p < q)%nat.
Proof.
  intros Hsorted Hp Hq Hxy Hxx.
  destruct (lt_eq_lt_dec p q) as [[Hlt | ->] | Hgt]; [done | |].
  - rewrite Hp in Hq. injection Hq as <-. congruence.
  - pose proof (Hsorted q p y x Hq Hp Hgt). congruence.
Qed.

(** Under a consistent comparator equal keys are tie-broken by index. *)
Lemma consistent_equal_keys_ordered_by_index (type : option DataType.t)
    (S : list sortItem) (a b : sortItem) :
  consistent_on (getSortComparator type) S → a ∈ S → b ∈ S →
  keys_equal a b = true →
  getSortComparator type a b = index_difference a b.
Proof.
  intros HC Ha Hb Hequal. apply equal_keys_index_difference; [done|].
  intros Hnumeric Hnull.
  destruct (Number.is_finite (parseFloat (sortValue a))) eqn:Hfinite; [done|].
  exfalso. pose proof (cf_not_nan _ _ HC a b Ha Hb) as Hnan.
  assert (sortValue a = sortValue b) as Hsame.
  { unfold keys_equal in Hequal. rewrite Hnull in Hequal.
    by apply strict_equals_eq. }
  assert (getSortComparator type = numberComparator) as Hnumber
    by by destruct type as [[| | |?]|].
  rewrite Hnumber in Hnan.
  by rewrite numberComparator_equal_keys_not_finite in Hnan.
Qed.

(** In the sorted items, of two items with equal keys the one that came
    first in the input stands first. *)
Lemma sorted_items_tie_order (type : option DataType.t) (column : column_def)
    (rows : list row) (columns : list column_def) (i j : nat)
    (a b : sortItem) :
  consistent_on (getSortComparator type) (sortItems column rows columns) →
  sortItems column rows columns !! i = Some a →
  sortItems column rows columns !! j = Some b →
  (i < j)%nat →
  keys_equal a b = true →
  ∃ p q,
    host_sort (getSortComparator type) (sortItems column rows columns) !! p
    = Some a
    ∧ host_sort (getSortComparator type) (sortItems column rows columns) !! q
      = Some b
    ∧ (p < q)%nat.
Proof.
  intros HC Hi Hj Hij Hequal.
  set (items := sortItems column rows columns) in *.
  set (comparator := getSortComparator type) in *.
  assert (a ∈ items) as Ha by by eapply list_elem_of_lookup_2.
  assert (b ∈ items) as Hb by by eapply list_elem_of_lookup_2.
  assert (index a = i ∧ index b = j) as [Hia Hjb].
  { unfold items in Hi, Hj. rewrite sortItems_lookup in Hi, Hj.
    destruct (rows !! i); [|done]. destruct (rows !! j); [|done].
    simpl in Hi, Hj. by injection Hi as <-; injection Hj as <-. }
  pose proof (host_sort_perm _ comparator items) as Hperm.
  pose proof (host_sort_sorted _ comparator items HC) as Hsorted.
  assert (a ∈ host_sort comparator items) as [p Hp]%list_elem_of_lookup_1
    by by rewrite Hperm.
  assert (b ∈ host_sort comparator items) as [q Hq]%list_elem_of_lookup_1
    by by rewrite Hperm.
  exists p, q. split_and!; [done..|].
  apply (sorted_by_lt_before comparator (host_sort comparator items) p q a b);
    [done..| |].
  - unfold cf_lt, comparator.
    rewrite (consistent_equal_keys_ordered_by_index _ items) by done.
    apply index_difference_negative. lia.
  - pose proof (cf_refl _ _ HC a Ha) as Hrefl. unfold cf_eq in Hrefl.
    by destruct (cf_lt comparator a a).
Qed.

(** X2.  Rows with equal sort keys keep their original relative order in
    the ascending result, whatever correct sorting algorithm the engine
    uses, as long as the comparator is consistent on the items. *)
Theorem sortData_ascending_stable (data : loc) (columnId : string)
    (columns : list column_def) (w : world) (column : column_def)
    (rows : list row) (i j : nat) (a b : sortItem) :
  getColumnById columns columnId = Some column →
  arrays w !! data = Some rows →
  consistent_on (getSortComparator (effective_type column))
                (sortItems column rows columns) →
  sortItems column rows columns !! i = Some a →
  sortItems column rows columns !! j = Some b →
  (i < j)%nat →
  keys_equal a b = true →
  ∃ sortedData w' sorted p q,
    sortData data columnId SortDirection.Ascending columns w
    = Return sortedData w'
    ∧ arrays w' !! sortedData = Some (rowData <$> sorted)
    ∧ sorted ≡ₚ sortItems column rows columns
    ∧ sorted !! p = Some a ∧ sorted !! q = Some b ∧ (p < q)%nat.
Proof.
  intros Hcolumn Hrows HC Hi Hj Hij Hequal.
  destruct (sorted_items_tie_order _ column rows columns i j a b
              HC Hi Hj Hij Hequal) as (p & q & Hp & Hq & Hpq).
  exists (fresh (dom (arrays w))). eexists.
  eexists _, p, q. split_and!.
  - by apply sortData_found.
  - simpl. apply lookup_insert_eq.
  - apply host_sort_perm.
  - done.
  - done.
  - done.
Qed.

(** X3.  Under [Descending] they come out in the reverse of their original
    order: the whole ascending result is reversed, ties included. *)
Theorem sortData_descending_reverses_ties (data : loc) (columnId : string)
    (columns : list column_def) (w : world) (column : column_def)
    (rows : list row) (i j : nat) (a b : sortItem) :
  getColumnById columns columnId = Some column →
  arrays w !! data = Some rows →
  consistent_on (getSortComparator (effective_type column))
                (sortItems column rows columns) →
  sortItems column rows columns !! i = Some a →
  sortItems column rows columns !! j = Some b →
  (i < j)%nat →
  keys_equal a b = true →
  ∃ sortedData w' sorted p q,
    sortData data columnId SortDirection.Descending columns w
    = Return sortedData w'
    ∧ arrays w' !! sortedData = Some (rowData <$> sorted)
    ∧ sorted ≡ₚ sortItems column rows columns
    ∧ sorted !! p = Some a ∧ sorted !! q = Some b ∧ (q < p)%nat.
Proof.
  intros Hcolumn Hrows HC Hi Hj Hij Hequal.
  destruct (sorted_items_tie_order _ column rows columns i j a b
              HC Hi Hj Hij Hequal) as (p & q & Hp & Hq & Hpq).
  set (sorted := host_sort (getSortComparator (effective_type column))
                           (sortItems column rows columns)) in *.
  pose proof (lookup_lt_Some _ _ _ Hp) as Hp_lt.
  pose proof (lookup_lt_Some _ _ _ Hq) as Hq_lt.
  exists (fresh (dom (arrays w))). eexists.
  exists (reverse sorted), (length sorted - S p)%nat, (length sorted - S q)%nat.
  split_and!.
  - by apply sortData_found.
  - simpl. rewrite lookup_insert_eq. by rewrite fmap_reverse.
  - rewrite reverse_Permutation. apply host_sort_perm.
  - rewrite reverse_lookup by lia. rewrite <- Hp. f_equal. lia.
  - rewrite reverse_lookup by lia. rewrite <- Hq. f_equal. lia.
  - lia.
Qed.

End Stability.

(** ** Stability for numeric columns *)

Lemma numeric_comparator `{Host} (type : option DataType.t) :
  numeric type = true → getSortComparator type = numberComparator.
Proof. by destruct type as [[| | |?]|]. Qed.

Lemma numeric_items_consistent `{Host} (type : option DataType.t)
    (S : list sortItem) :
  numeric type = true → Forall well_formed_numeric S →
  consistent_on (getSortComparator type) S.
Proof.
  intros Hnumeric. rewrite (numeric_comparator type Hnumeric).
  rewrite Forall_forall. intros Hwell.
  apply (consistent_of_strict_order _ numeric_position
           (@lexico (option Qc * nat) _)).
  - intros a b Ha Hb. by apply numberComparator_reads_position; apply Hwell.
  - intros a b Ha Hb. by apply numberComparator_reads_position; apply Hwell.
  - intros a b Ha Hb. by apply numberComparator_reads_position; apply Hwell.
Qed.

(** X4.  For a numeric column whose keys are all null or finite numbers,
    rows with equal keys keep their original relative order in the
    ascending result, on every engine. *)
Corollary sortData_numeric_stable `{Host} `{Callbacks} (data : loc)
    (columnId : string) (columns : list column_def) (w : world)
    (column : column_def) (rows : list row) (i j : nat) (a b : sortItem) :
  getColumnById columns columnId = Some column →
  arrays w !! data = Some rows →
  numeric (effective_type column) = true →
  Forall well_formed_numeric (sortItems column rows columns) →
  sortItems column rows columns !! i = Some a →
  sortItems column rows columns !! j = Some b →
  (i < j)%nat →
  keys_equal a b = true →
  ∃ sortedData w' sorted p q,
    sortData data columnId SortDirection.Ascending columns w
    = Return sortedData w'
    ∧ arrays w' !! sortedData = Some (rowData <$> sorted)
    ∧ sorted ≡ₚ sortItems column rows columns
    ∧ sorted !! p = Some a ∧ sorted !! q = Some b ∧ (p < q)%nat.
Proof.
  intros Hcolumn Hrows Hnumeric Hwell Hi Hj Hij Hequal.
  pose proof (numeric_items_consistent _ _ Hnumeric Hwell) as HC.
  destruct (sorted_items_tie_order _ column rows columns i j a b
              HC Hi Hj Hij Hequal) as (p & q & Hp & Hq & Hpq).
  exists (fresh (dom (arrays w))). eexists.
  eexists _, p, q. split_and!.
  - by apply sortData_found.
  - simpl. apply lookup_insert_eq.
  - apply host_sort_perm.
  - done.
  - done.
  - done.
Qed.

(** ** [validateColumns] and the properties [ids] inherits *)

(** C9.  The claim is that [validateColumns] never raises an error.  A
    column whose [id] names a property of [Object.prototype] makes it raise:
    [ids['constructor']] is the inherited function, which is truthy, so the
    code takes the branch that calls [push] on it.  A reused [id] of that
    kind is not reported either. *)
Theorem validateColumns_inherited_name_throws (w : world) :
  validateColumns (Some [Sample.plain_column "constructor" None]) w
  = Throw (TypeError "ids[id].push is not a function") w
  ∧ validateColumns
      (Some [Sample.plain_column "toString" None;
             Sample.plain_column "toString" None]) w
    = Throw (TypeError "ids[id].push is not a function") w.
Proof. split; reflexivity. Qed.

(** The example of the spec: on [[{id:'a'},{id:'b'},{id:'a'}]] exactly one
    diagnostic, for ['a'] at positions 0 and 2. *)
Example validateColumns_a_b_a (w : world) :
  validateColumns
    (Some [Sample.plain_column "a" None; Sample.plain_column "b" None;
           Sample.plain_column "a" None]) w
  = Return ()
      {| arrays := arrays w;
         console := console w ++
           [ColumnIdReused "Column ID 'a' used in multiple columns 0, 2"
              [Sample.plain_column "a" None; Sample.plain_column "a" None]];
         production := production w |}.
Proof. reflexivity. Qed.

(** Absent columns: nothing happens. *)
Lemma validateColumns_absent (w : world) : validateColumns None w = Return () w.
Proof. reflexivity. Qed.

(** ** [validateColumns] when no [id] is an inherited property name *)

Section ValidateColumns.

Implicit Types (ids : list (string * list nat)) (id : string).

Lemma own_property_is_Some ids id :
  is_Some (own_property ids id) ↔ id ∈ ids.*1.
Proof.
  induction ids as [|[k ps] ids IH]; simpl.
  - split; [by intros [? ?] | by intros ?%elem_of_nil].
  - rewrite elem_of_cons. case_bool_decide as Hk.
    + split; [by left | by eexists].
    + rewrite IH. split; [by right | by intros [-> | ?]].
Qed.

Lemma own_property_app ids k ps id :
  own_property (ids ++ [(k, ps)]) id
  = match own_property ids id with
    | Some found => Some found
    | None => if bool_decide (k = id) then Some ps else None
    end.
Proof.
  induction ids as [|[k' ps'] ids IH]; simpl; [done|].
  destruct (bool_decide (k' = id)); [done | apply IH].
Qed.

Lemma own_property_push ids k i id :
  own_property (ids_push ids k i) id
  = if bool_decide (k = id) then (λ ps, ps ++ [i]) <$> own_property ids id
    else own_property ids id.
Proof.
  induction ids as [|[k' ps'] ids IH]; simpl.
  - by destruct (bool_decide (k = id)).
  - destruct (decide (k' = k)) as [->|Hk].
    + rewrite bool_decide_eq_true_2 by done. simpl.
      by destruct (bool_decide (k = id)).
    + rewrite (bool_decide_eq_false_2 (k' = k)) by done. simpl. rewrite IH.
      destruct (decide (k' = id)) as [->|Hid].
      * rewrite (bool_decide_eq_true_2 (id = id)) by done.
        by rewrite (bool_decide_eq_false_2 (k = id)) by done.
      * by rewrite (bool_decide_eq_false_2 (k' = id)) by done.
Qed.

Lemma ids_push_keys ids k i : (ids_push ids k i).*1 = ids.*1.
Proof.
  induction ids as [|[k' ps'] ids IH]; simpl; [done|].
  case_bool_decide; simpl; [done | by f_equal].
Qed.

Lemma record_columns_spec (columns : list column_def) ids (i : nat) :
  Forall (λ c, column_id c ∉ object_prototype_properties) columns →
  NoDup ids.*1 →
  ∃ ids',
    record_columns ids i columns = inr ids'
    ∧ NoDup ids'.*1
    ∧ ∀ id, own_property ids' id
            = extend (own_property ids id) (positions_from i id columns).
Proof.
  revert ids i. induction columns as [|c columns IH]; intros ids i Hplain Hnodup.
  - exists ids. split_and!; [done..|]. intros id. simpl.
    destruct (own_property ids id); simpl; [by rewrite app_nil_r | done].
  - apply Forall_cons in Hplain as [Hc Hplain]. simpl.
    unfold record_column, ids_get.
    destruct (own_property ids (column_id c)) as [ps|] eqn:Hown.
    + destruct (IH (ids_push ids (column_id c) i) (S i) Hplain)
        as (ids' & Hrun & Hnodup' & Hlookup).
      { by rewrite ids_push_keys. }
      exists ids'. split_and!; [done..|]. intros id.
      rewrite Hlookup, own_property_push.
      case_bool_decide as Hid.
      * subst id. rewrite Hown. simpl. by rewrite <- app_assoc.
      * done.
    + rewrite bool_decide_eq_false_2 by done.
      destruct (IH (ids ++ [(column_id c, [i])]) (S i) Hplain)
        as (ids' & Hrun & Hnodup' & Hlookup).
      { rewrite fmap_app. simpl. apply NoDup_app. split_and!.
        - done.
        - intros id Hid ->%list_elem_of_singleton.
          apply own_property_is_Some in Hid as [? Hid]. congruence.
        - apply NoDup_singleton. }
      exists ids'. split_and!; [done..|]. intros id.
      rewrite Hlookup, own_property_app.
      case_bool_decide as Hid.
      * subst id. by rewrite Hown.
      * by destruct (own_property ids id).
Qed.

Lemma object_keys_perm ids : object_keys ids ≡ₚ ids.*1.
Proof.
  unfold object_keys. rewrite merge_sort_Permutation.
  induction (ids.*1) as [|k keys IH]; [done|]. simpl.
  destruct (array_index k) as [n|] eqn:Hk; simpl.
  - rewrite filter_cons_False by (rewrite Hk; by intros ?).
    by rewrite IH.
  - rewrite filter_cons_True by done.
    by rewrite <- Permutation_middle, IH.
Qed.

Lemma forEach_report_id (columns : list column_def) ids (keys : list string)
    (w : world) :
  forEach (report_id columns ids) keys w
  = Return ()
      {| arrays := arrays w;
         console := console w ++ omap (report_of columns ids) keys;
         production := production w |}.
Proof.
  revert w. induction keys as [|k keys IH]; intros w; simpl.
  - unfold mret, M_ret. rewrite app_nil_r. by destruct w.
  - unfold mbind, M_bind, report_id, report_of.
    destruct (own_property ids k) as [ps|]; simpl.
    + destruct (1 <? length ps)%nat; simpl.
      * rewrite IH. simpl. by rewrite <- app_assoc.
      * by rewrite IH.
    + by rewrite IH.
Qed.

Lemma positions_from_columns (before columns : list column_def) id :
  omap (λ index, (before ++ columns) !! index)
       (positions_from (length before) id columns)
  = filter (λ c, column_id c = id) columns.
Proof.
  revert before. induction columns as [|c columns IH]; intros before; [done|].
  simpl. specialize (IH (before ++ [c])).
  rewrite length_app, Nat.add_1_r, <- app_assoc in IH. simpl in IH.
  case_bool_decide as Hc.
  - rewrite filter_cons_True by done. simpl.
    rewrite list_lookup_middle by done. simpl. f_equal. exact IH.
  - rewrite filter_cons_False by done. exact IH.
Qed.

Lemma reports_of_keys (columns : list column_def) ids (keys : list string) :
  (∀ id, own_property ids id
         = match positions_of id columns with
           | [] => None
           | ps => Some ps
           end) →
  omap (report_of columns ids) keys
  = reused_diagnostic columns
    <$> filter (λ id, (1 < length (positions_of id columns))%nat) keys.
Proof.
  intros Hown. induction keys as [|k keys IH]; [done|].
  rewrite filter_cons. simpl. unfold report_of at 1. rewrite Hown.
  destruct (positions_of k columns) as [|p ps] eqn:Hk.
  - rewrite decide_False by (simpl; lia). exact IH.
  - destruct (1 <? length (p :: ps))%nat eqn:Hlen.
    + apply Nat.ltb_lt in Hlen. rewrite decide_True by done.
      rewrite fmap_cons. f_equal; [|exact IH].
      unfold reused_diagnostic. rewrite Hk. f_equal.
      rewrite <- Hk. apply (positions_from_columns [] columns k).
    + apply Nat.ltb_ge in Hlen. rewrite decide_False by lia. exact IH.
Qed.

(** The run of [validateColumns] on such a collection: the first loop
    collects, for each [id], the positions at which it occurs; the second
    warns about the keys with more than one position. *)
Lemma validateColumns_run (columns : list column_def) (w : world) :
  Forall (λ c, column_id c ∉ object_prototype_properties) columns →
  ∃ ids,
    NoDup ids.*1
    ∧ (∀ id, own_property ids id
             = match positions_of id columns with
               | [] => None
               | ps => Some ps
               end)
    ∧ validateColumns (Some columns) w
      = Return ()
          {| arrays := arrays w;
             console := console w ++
               (reused_diagnostic columns
                <$> filter (λ id, (1 < length (positions_of id columns))%nat)
                           (object_keys ids));
             production := production w |}.
Proof.
  intros Hplain.
  destruct (record_columns_spec columns [] 0 Hplain)
    as (ids & Hrun & Hnodup & Hlookup); [constructor|].
  assert (∀ id, own_property ids id
                = match positions_of id columns with
                  | [] => None
                  | ps => Some ps
                  end) as Hown.
  { intros id. rewrite Hlookup. unfold positions_of. simpl.
    by destruct (positions_from 0 id columns). }
  exists ids. split_and!; [done..|].
  unfold validateColumns. rewrite Hrun, forEach_report_id.
  by rewrite (reports_of_keys columns ids).
Qed.

(** X8.  When no [id] is the name of a property of [Object.prototype],
    [validateColumns] returns normally, touches nothing but the console,
    and writes one diagnostic for each [id] that occurs in more than one
    column and none for the others; the diagnostic carries the [id], its
    positions and the columns at those positions. *)
Theorem validateColumns_reports_reused_ids (columns : list column_def)
    (w : world) :
  Forall (λ c, column_id c ∉ object_prototype_properties) columns →
  ∃ reported : list string,
    validateColumns (Some columns) w
    = Return ()
        {| arrays := arrays w;
           console := console w ++ (reused_diagnostic columns <$> reported);
           production := production w |}
    ∧ NoDup reported
    ∧ ∀ id, id ∈ reported ↔ (1 < length (positions_of id columns))%nat.
Proof.
  intros Hplain.
  destruct (validateColumns_run columns w Hplain)
    as (ids & Hnodup & Hown & Hrun).
  exists (filter (λ id, (1 < length (positions_of id columns))%nat)
                 (object_keys ids)).
  split_and!.
  - done.
  - apply NoDup_filter. by rewrite object_keys_perm.
  - intros id. rewrite list_elem_of_filter, object_keys_perm.
    rewrite <- own_property_is_Some, Hown.
    split; [by intros [? _]|]. intros Hlen. split; [done|].
    destruct (positions_of id columns); [simpl in Hlen; lia | by eexists].
Qed.

Lemma positions_from_nil (i : nat) id (columns : list column_def) :
  positions_from i id columns = [] ↔ id ∉ column_id <$> columns.
Proof.
  revert i. induction columns as [|c columns IH]; intros i; simpl.
  - split; [intros _ ?%elem_of_nil | ]; done.
  - rewrite not_elem_of_cons. case_bool_decide as Hc.
    + split; [done | by intros [? _]].
    + rewrite IH. split; [by intros ? | by intros [_ ?]].
Qed.

(** No [id] is reused exactly when the [id]s are pairwise distinct. *)
Lemma positions_at_most_one (columns : list column_def) :
  NoDup (column_id <$> columns)
  ↔ ∀ id, (length (positions_of id columns) ≤ 1)%nat.
Proof.
  unfold positions_of.
  cut (∀ i, NoDup (column_id <$> columns)
            ↔ ∀ id, (length (positions_from i id columns) ≤ 1)%nat);
    [by intros Hgen|].
  induction columns as [|c columns IH]; intros i; simpl.
  - split; [intros _ id; simpl; lia | constructor].
  - rewrite NoDup_cons, (IH (S i)). split.
    + intros [Hnew Hrest] id. case_bool_decide as Hc.
      * subst id. apply (positions_from_nil (S i)) in Hnew.
        rewrite Hnew. simpl. lia.
      * apply Hrest.
    + intros Hall. split.
      * apply (positions_from_nil (S i)).
        specialize (Hall (column_id c)).
        rewrite bool_decide_eq_true_2 in Hall by done. simpl in Hall.
        destruct (positions_from (S i) (column_id c) columns); [done|].
        simpl in Hall. lia.
      * intros id. specialize (Hall id). case_bool_decide; simpl in Hall; lia.
Qed.

(** X9.  [validateColumns] is silent exactly when the [id]s are pairwise
    distinct (none of them being the name of a property of
    [Object.prototype]): it then returns with the console as it was. *)
Theorem validateColumns_silent_iff_distinct (columns : list column_def)
    (w : world) :
  Forall (λ c, column_id c ∉ object_prototype_properties) columns →
  (validateColumns (Some columns) w = Return () w
   ↔ NoDup (column_id <$> columns)).
Proof.
  intros Hplain.
  destruct (validateColumns_run columns w Hplain)
    as (ids & Hnodup & Hown & Hrun).
  set (reported := filter (λ id, (1 < length (positions_of id columns))%nat)
                          (object_keys ids)) in *.
  assert (∀ id, id ∈ reported → (1 < length (positions_of id columns))%nat)
    as Hreported by (intros id [? _]%list_elem_of_filter; done).
  assert (∀ id, (1 < length (positions_of id columns))%nat → id ∈ reported)
    as Hreused.
  { intros id Hlen. apply list_elem_of_filter. split; [done|].
    rewrite object_keys_perm. apply own_property_is_Some. rewrite Hown.
    destruct (positions_of id columns); [simpl in Hlen; lia | by eexists]. }
  rewrite Hrun, positions_at_most_one. split.
  - intros Hsame id.
    destruct (decide (1 < length (positions_of id columns))%nat) as [Hlen|];
      [|lia].
    apply Hreused in Hlen. destruct w as [arr cons prod].
    injection Hsame as Hcons. simpl in Hcons.
    apply (f_equal length) in Hcons.
    rewrite length_app, length_fmap in Hcons.
    destruct reported; [by apply elem_of_nil in Hlen | simpl in Hcons; lia].
  - intros Hall.
    assert (reported = []) as ->.
    { destruct reported as [|id rest] eqn:E; [done|].
      assert (id ∈ id :: rest) as Hin%Hreported by left.
      specialize (Hall id). lia. }
    simpl. rewrite app_nil_r. by destruct w.
Qed.

(** The first loop fails as soon as it meets an inherited name. *)
Lemma record_columns_inherited (columns : list column_def) ids (i : nat) :
  Forall (λ k, k ∉ object_prototype_properties) ids.*1 →
  Exists (λ c, column_id c ∈ object_prototype_properties) columns →
  record_columns ids i columns
  = inl (TypeError "ids[id].push is not a function").
Proof.
  revert ids i. induction columns as [|c columns IH]; intros ids i Hkeys Hsome.
  - by apply Exists_nil in Hsome.
  - simpl. unfold record_column, ids_get.
    destruct (own_property ids (column_id c)) as [ps|] eqn:Hown.
    + assert (column_id c ∉ object_prototype_properties) as Hc.
      { rewrite Forall_forall in Hkeys. apply Hkeys.
        apply own_property_is_Some. by eexists. }
      apply Exists_cons in Hsome as [?|Hsome]; [done|].
      apply IH; [by rewrite ids_push_keys | done].
    + case_bool_decide as Hc; [done|].
      apply Exists_cons in Hsome as [?|Hsome]; [done|].
      apply IH; [|done].
      rewrite fmap_app. apply Forall_app. split; [done|].
      by repeat constructor.
Qed.

(** X10.  A column whose [id] is the name of a property of
    [Object.prototype], anywhere in the collection, makes [validateColumns]
    throw a [TypeError] before anything is written to the console, also when
    other [id]s are reused. *)
Theorem validateColumns_throws_on_inherited_name (columns : list column_def)
    (w : world) :
  Exists (λ c, column_id c ∈ object_prototype_properties) columns →
  validateColumns (Some columns) w
  = Throw (TypeError "ids[id].push is not a function") w.
Proof.
  intros Hsome. unfold validateColumns.
  by rewrite (record_columns_inherited columns [] 0); [|constructor|].
Qed.

End ValidateColumns.

(** ** The statements above on sample tables *)

Lemma null_key_policy_number_sample :
  is_nullish (sortValue (Sample.item 0 null)) = true
  ∧ is_nullish (sortValue (Sample.item 1 (Sample.integer 5))) = false
  ∧ getSortComparator (Some DataType.Number)
      (Sample.item 0 null) (Sample.item 1 (Sample.integer 5)) = Number.one
  ∧ getSortComparator (Some DataType.Number)
      (Sample.item 1 (Sample.integer 5)) (Sample.item 0 null)
    = Number.minus_one.
Proof.
  split; [reflexivity|]. split; [reflexivity|].
  pose proof (null_key_policy (Some DataType.Number)
                (Sample.item 0 null) (Sample.item 1 (Sample.integer 5))
                eq_refl eq_refl) as (H1 & H2 & _).
  exact (conj H1 H2).
Defined.

Lemma sortData_unknown_column_sample :
  Forall (λ c, column_id c ≠ "price")
         [Sample.plain_column "id" (Some DataType.Number)]
  ∧ sortData 1%positive "price"
      SortDirection.Descending
      [Sample.plain_column "id" (Some DataType.Number)]
      (Sample.table Sample.three_rows)
    = Return 1%positive
        {| arrays := arrays (Sample.table Sample.three_rows);
           console :=
             [NoColumnFound "price"
                [Sample.plain_column "id" (Some DataType.Number)]];
           production := false |}.
Proof.
  assert (Forall (λ c, column_id c ≠ "price")
                 [Sample.plain_column "id" (Some DataType.Number)]) as Hnone
    by (repeat constructor; discriminate).
  split; [exact Hnone|].
  exact (sortData_unknown_column 1%positive
           "price" SortDirection.Descending
           [Sample.plain_column "id" (Some DataType.Number)]
           (Sample.table Sample.three_rows) Hnone).
Defined.

Lemma sortData_descending_is_reverse_sample :
  ∃ asc w_asc desc w_desc sorted,
    sortData 1%positive "n" SortDirection.Ascending
      [Sample.plain_column "n" (Some DataType.Number)]
      (Sample.table Sample.tied_rows) = Return asc w_asc
    ∧ sortData 1%positive "n" SortDirection.Descending
        [Sample.plain_column "n" (Some DataType.Number)]
        (Sample.table Sample.tied_rows) = Return desc w_desc
    ∧ arrays w_asc !! asc = Some sorted
    ∧ arrays w_desc !! desc = Some (reverse sorted).
Proof.
  exact (sortData_descending_is_reverse 1%positive "n"
           [Sample.plain_column "n" (Some DataType.Number)]
           (Sample.table Sample.tied_rows)
           (Sample.plain_column "n" (Some DataType.Number))
           Sample.tied_rows eq_refl eq_refl).
Defined.

Lemma sortData_uses_effective_type_sample :
  ∃ sortedData w',
    sortData 1%positive "id" SortDirection.Ascending
      [Sample.plain_column "id" (Some DataType.Number)]
      (Sample.table Sample.three_rows) = Return sortedData w'
    ∧ arrays w' !! sortedData
      = Some (rowData <$> host_sort (getSortComparator (Some DataType.Number))
                (sortItems (Sample.plain_column "id" (Some DataType.Number))
                           Sample.three_rows
                           [Sample.plain_column "id" (Some DataType.Number)])).
Proof.
  exact (sortData_uses_effective_type 1%positive "id" SortDirection.Ascending
           [Sample.plain_column "id" (Some DataType.Number)]
           (Sample.table Sample.three_rows)
           (Sample.plain_column "id" (Some DataType.Number))
           Sample.three_rows eq_refl eq_refl).
Defined.

Lemma sortData_permutation_sample :
  ∃ sortedData w' sorted,
    sortData 1%positive "id" SortDirection.Descending
      [Sample.plain_column "id" (Some DataType.Number)]
      (Sample.table Sample.three_rows) = Return sortedData w'
    ∧ arrays w' !! sortedData = Some sorted
    ∧ sorted ≡ₚ Sample.three_rows
    ∧ sortedData ≠ 1%positive
    ∧ arrays (Sample.table Sample.three_rows) !! sortedData = None
    ∧ arrays w' !! 1%positive = Some Sample.three_rows
    ∧ console w' = console (Sample.table Sample.three_rows).
Proof.
  exact (sortData_permutation 1%positive "id" SortDirection.Descending
           [Sample.plain_column "id" (Some DataType.Number)]
           (Sample.table Sample.three_rows)
           (Sample.plain_column "id" (Some DataType.Number))
           Sample.three_rows eq_refl eq_refl).
Defined.

(** The examples of the spec: [[{id:3},{id:1},{id:2}]] by the [Number]
    column [id] gives 1, 2, 3 ascending and 3, 2, 1 descending. *)
Example sortData_three_rows_ascending :
  Sample.returned_rows
    (sortData 1%positive "id" SortDirection.Ascending
       [Sample.plain_column "id" (Some DataType.Number)]
       (Sample.table Sample.three_rows))
  = [12; 13; 11]%positive.
Proof. by vm_compute. Qed.

Example sortData_three_rows_descending :
  Sample.returned_rows
    (sortData 1%positive "id" SortDirection.Descending
       [Sample.plain_column "id" (Some DataType.Number)]
       (Sample.table Sample.three_rows))
  = [11; 13; 12]%positive.
Proof. by vm_compute. Qed.

(** Under [Descending] the two rows with key 7 come out in the reverse of
    their original order: a tie-stable descending sort would give
    21, 23, 24, 22. *)
Example sortData_tied_rows_descending :
  Sample.returned_rows
    (sortData 1%positive "n" SortDirection.Descending
       [Sample.plain_column "n" (Some DataType.Number)]
       (Sample.table Sample.tied_rows))
  = [22; 23; 21; 24]%positive.
Proof. by vm_compute. Qed.

(** The rows 21 and 23 of the sample both have key 7: 21 stays in front. *)
Lemma sortData_numeric_stable_sample :
  ∃ sortedData w' sorted p q,
    sortData 1%positive "n" SortDirection.Ascending
      [Sample.plain_column "n" (Some DataType.Number)]
      (Sample.table Sample.tied_rows) = Return sortedData w'
    ∧ arrays w' !! sortedData = Some (rowData <$> sorted)
    ∧ sorted ≡ₚ sortItems (Sample.plain_column "n" (Some DataType.Number))
                          Sample.tied_rows
                          [Sample.plain_column "n" (Some DataType.Number)]
    ∧ sorted !! p
      = Some {| rowData := Sample.record 21 "n" (Sample.integer 7);
                index := 0; sortValue := Sample.integer 7 |}
    ∧ sorted !! q
      = Some {| rowData := Sample.record 23 "n" (Sample.integer 7);
                index := 2; sortValue := Sample.integer 7 |}
    ∧ (p < q)%nat.
Proof.
  apply (sortData_numeric_stable 1%positive "n"
           [Sample.plain_column "n" (Some DataType.Number)]
           (Sample.table Sample.tied_rows)
           (Sample.plain_column "n" (Some DataType.Number))
           Sample.tied_rows 0 2).
  - reflexivity.
  - reflexivity.
  - reflexivity.
  - repeat constructor; first [by left | by right].
  - reflexivity.
  - reflexivity.
  - lia.
  - reflexivity.
Defined.

Lemma validateColumns_reports_reused_ids_sample :
  ∃ reported : list string,
    validateColumns
      (Some [Sample.plain_column "a" None; Sample.plain_column "b" None;
             Sample.plain_column "a" None]) (Sample.table [])
    = Return ()
        {| arrays := arrays (Sample.table []);
           console :=
             reused_diagnostic
               [Sample.plain_column "a" None; Sample.plain_column "b" None;
                Sample.plain_column "a" None] <$> reported;
           production := false |}
    ∧ NoDup reported
    ∧ ∀ id, id ∈ reported
            ↔ (1 < length (positions_of id
                    [Sample.plain_column "a" None; Sample.plain_column "b" None;
                     Sample.plain_column "a" None]))%nat.
Proof.
  apply (validateColumns_reports_reused_ids
           [Sample.plain_column "a" None; Sample.plain_column "b" None;
            Sample.plain_column "a" None] (Sample.table [])).
  apply (bool_decide_unpack _). by vm_compute.
Defined.

(** The same for a [String] column, where consistency is checked on the
    items: the rows 42 and 43 both have key ['a']. *)
Lemma sortData_ascending_stable_sample :
  ∃ sortedData w' sorted p q,
    sortData 1%positive "n" SortDirection.Ascending
      [Sample.plain_column "n" (Some DataType.String)]
      (Sample.table Sample.text_rows) = Return sortedData w'
    ∧ arrays w' !! sortedData = Some (rowData <$> sorted)
    ∧ sorted ≡ₚ sortItems (Sample.plain_column "n" (Some DataType.String))
                          Sample.text_rows
                          [Sample.plain_column "n" (Some DataType.String)]
    ∧ sorted !! p
      = Some {| rowData := Sample.record 42 "n" (str "a");
                index := 1; sortValue := str "a" |}
    ∧ sorted !! q
      = Some {| rowData := Sample.record 43 "n" (str "a");
                index := 2; sortValue := str "a" |}
    ∧ (p < q)%nat.
Proof.
  apply (sortData_ascending_stable 1%positive "n"
           [Sample.plain_column "n" (Some DataType.String)]
           (Sample.table Sample.text_rows)
           (Sample.plain_column "n" (Some DataType.String))
           Sample.text_rows 1 2).
  - reflexivity.
  - reflexivity.
  - apply consistentb_sound. by vm_compute.
  - reflexivity.
  - reflexivity.
  - lia.
  - reflexivity.
Defined.

(** On the rows with key [Infinity] the numeric comparator is not a
    consistent comparison function. *)
Example numberComparator_inconsistent_on_infinite_keys :
  consistentb (getSortComparator (Some DataType.Number))
    (sortItems (Sample.plain_column "n" (Some DataType.Number))
               Sample.infinite_rows
               [Sample.plain_column "n" (Some DataType.Number)])
  = false.
Proof. by vm_compute. Qed.

(** What the [NaN] of the numeric comparator does to [sortData]: on an
    engine whose sorting algorithm is correct but not stable, two rows with
    key [Infinity] leave an ascending sort in the reverse of their original
    order, while rows tied on a finite key (21 and 23 below) keep theirs. *)
Example sortData_infinite_keys_unstable_engine :
  Sample.returned_rows
    (sortData (H := unstable_engine) 1%positive "n" SortDirection.Ascending
       [Sample.plain_column "n" (Some DataType.Number)]
       (Sample.table Sample.infinite_rows))
  = [32; 31]%positive.
Proof. by vm_compute. Qed.

Example sortData_finite_keys_unstable_engine :
  Sample.returned_rows
    (sortData (H := unstable_engine) 1%positive "n" SortDirection.Ascending
       [Sample.plain_column "n" (Some DataType.Number)]
       (Sample.table Sample.tied_rows))
  = [24; 21; 23; 22]%positive.
Proof. by vm_compute. Qed.

(** * Further properties *)

(** ** What the comparators order by *)

(** X6.  On two keys that read as finite numbers the numeric comparator
    orders by the number read, whatever the keys look like (the text ['5']
    and the number [5] read the same), and by index when the numbers are
    equal. *)
Theorem numberComparator_orders_numbers `{Host} (a b : sortItem) (p q : Qc) :
  is_nullish (sortValue a) = false →
  is_nullish (sortValue b) = false →
  parseFloat (sortValue a) = Fin p →
  parseFloat (sortValue b) = Fin q →
  (cf_lt numberComparator a b = true
   ↔ (p < q)%Qc ∨ (p = q ∧ (index a < index b)%nat))
  ∧ (cf_gt numberComparator a b = true
     ↔ (q < p)%Qc ∨ (p = q ∧ (index b < index a)%nat)).
Proof.
  intros Hna Hnb Hp Hq.
  assert (well_formed_numeric a) as Ha by (right; by rewrite Hp).
  assert (well_formed_numeric b) as Hb by (right; by rewrite Hq).
  destruct (numberComparator_reads_position a b Ha Hb) as (_ & Hlt & Hgt).
  rewrite Hlt, Hgt. unfold numeric_position. rewrite Hna, Hnb, Hp, Hq.
  unfold lexico, prod_lexico. cbn [fst snd].
  unfold lexico, rank_lexico, nat_lexico.
  split; split.
  - intros [?|[[= ->] ?]]; [by left | by right].
  - intros [?|[-> ?]]; [by left | by right].
  - intros [?|[[= ->] ?]]; [by left | by right].
  - intros [?|[-> ?]]; [by left | by right].
Qed.

(** X7.  The string comparator ignores case: two keys whose lower-cased
    text is the same are a tie, ordered by index. *)
Theorem stringComparator_ignores_case `{Host} (a b : sortItem) :
  is_nullish (sortValue a) = false →
  is_nullish (sortValue b) = false →
  host_toLowerCase (ToString (sortValue a))
  = host_toLowerCase (ToString (sortValue b)) →
  stringComparator a b = index_difference a b
  ∧ (cf_lt stringComparator a b = true ↔ (index a < index b)%nat).
Proof.
  intros Hna Hnb Hsame.
  assert (stringComparator a b = index_difference a b) as Heq.
  { unfold stringComparator. rewrite Hna, Hnb, Hsame. simpl.
    by rewrite host_localeCompare_refl. }
  split; [done|]. unfold cf_lt. rewrite Heq. apply index_difference_negative.
Qed.

(** ** Looking a column up by its own [id] *)

(** X11.  In a collection whose [id]s are pairwise distinct, looking up the
    [id] of a column of the collection gives that very column back. *)
Theorem getColumnById_own_id (columns : list column_def) (column : column_def) :
  NoDup (column_id <$> columns) →
  column ∈ columns →
  getColumnById columns (column_id column) = Some column.
Proof.
  unfold getColumnById.
  induction columns as [|c columns IH]; intros Hnodup Hin.
  - by apply elem_of_nil in Hin.
  - simpl in Hnodup. apply NoDup_cons in Hnodup as [Hnew Hnodup]. simpl.
    apply elem_of_cons in Hin as [->|Hin].
    + by rewrite bool_decide_eq_true_2.
    + rewrite bool_decide_eq_false_2; [by apply IH|].
      intros Hsame. apply Hnew. rewrite Hsame.
      apply list_elem_of_fmap. by exists column.
Qed.

(** ** What [sortData] does to the store *)

(** X12.  When the column is found, [sortData] creates exactly one array
    and leaves every existing array, the console and the environment as
    they were. *)
Theorem sortData_frame `{Host} `{Callbacks} (data : loc) (columnId : string)
    (sortDirection : SortDirection.t) (columns : list column_def) (w : world)
    (column : column_def) (rows : list row) :
  getColumnById columns columnId = Some column →
  arrays w !! data = Some rows →
  ∃ sortedData w',
    sortData data columnId sortDirection columns w = Return sortedData w'
    ∧ (dom (arrays w') = {[sortedData]} ∪ dom (arrays w))
    ∧ (sortedData ∉ dom (arrays w))
    ∧ (∀ a, a ∈ dom (arrays w) → arrays w' !! a = arrays w !! a)
    ∧ console w' = console w
    ∧ production w' = production w.
Proof.
  intros Hcolumn Hrows. do 2 eexists. split_and!.
  - by apply sortData_found.
  - simpl. by rewrite dom_insert_L.
  - apply is_fresh.
  - intros a Ha. simpl. apply lookup_insert_ne.
    intros <-. by apply (is_fresh (dom (arrays w))).
  - done.
  - done.
Qed.

(** ** The order of the rows [sortData] returns *)

Lemma lookups_strongly_sorted {A : Type} (R : relation A) (l : list A) :
  (∀ p q x y, l !! p = Some x → l !! q = Some y → (p < q)%nat → R x y) →
  StronglySorted R l.
Proof.
  induction l as [|x l IH]; intros Hall; constructor.
  - apply IH. intros p q a b Hp Hq Hpq. apply (Hall (S p) (S q)); [done..|lia].
  - apply Forall_forall. intros y [q Hq]%list_elem_of_lookup_1.
    apply (Hall 0%nat (S q)); [done..|lia].
Qed.

Section RowOrder.
Context `{Host} `{Callbacks}.

Lemma sortItems_index (column : column_def) (rows : list row)
    (columns : list column_def) (i : nat) (a : sortItem) :
  sortItems column rows columns !! i = Some a → index a = i.
Proof.
  rewrite sortItems_lookup. destruct (rows !! i); [|done].
  simpl. by intros [= <-].
Qed.

Lemma sortItems_NoDup (column : column_def) (rows : list row)
    (columns : list column_def) :
  NoDup (sortItems column rows columns).
Proof.
  apply NoDup_alt. intros i j a Hi%sortItems_index Hj%sortItems_index.
  congruence.
Qed.

(** Two items of one table with the same index are the same item. *)
Lemma sortItems_index_inj (column : column_def) (rows : list row)
    (columns : list column_def) (a b : sortItem) :
  a ∈ sortItems column rows columns → b ∈ sortItems column rows columns →
  index a = index b → a = b.
Proof.
  intros [i Hi]%list_elem_of_lookup_1 [j Hj]%list_elem_of_lookup_1 Hsame.
  pose proof (sortItems_index _ _ _ _ _ Hi).
  pose proof (sortItems_index _ _ _ _ _ Hj).
  assert (i = j) as -> by congruence. congruence.
Qed.

(** A sorted arrangement of well-formed numeric items is strictly
    increasing: by number, nulls last, then by index. *)
Lemma numeric_sorted_increasing (column : column_def) (rows : list row)
    (columns : list column_def) (out : list sortItem) :
  Forall well_formed_numeric (sortItems column rows columns) →
  out ≡ₚ sortItems column rows columns →
  sorted_by numberComparator out →
  ∀ p q x y, out !! p = Some x → out !! q = Some y → (p < q)%nat →
             lexico (numeric_position x) (numeric_position y).
Proof.
  intros Hwell Hperm Hsorted p q x y Hp Hq Hpq.
  rewrite Forall_forall in Hwell.
  assert (x ∈ sortItems column rows columns) as Hx
    by (rewrite <- Hperm; by eapply list_elem_of_lookup_2).
  assert (y ∈ sortItems column rows columns) as Hy
    by (rewrite <- Hperm; by eapply list_elem_of_lookup_2).
  destruct (trichotomy (@lexico (option Qc * nat) _)
              (numeric_position x) (numeric_position y)) as [?|[Hsame|Hyx]].
  - done.
  - exfalso.
    assert (x = y) as ->.
    { apply (sortItems_index_inj column rows columns); [done..|].
      by apply (f_equal snd) in Hsame. }
    assert (NoDup out) as Hnodup
      by (rewrite Hperm; apply sortItems_NoDup).
    pose proof (NoDup_lookup _ _ _ _ Hnodup Hp Hq). lia.
  - exfalso.
    destruct (numberComparator_reads_position y x (Hwell y Hy) (Hwell x Hx))
      as (_ & Hlt & _).
    apply Hlt in Hyx. pose proof (Hsorted p q x y Hp Hq Hpq). congruence.
Qed.

(** There is only one such arrangement. *)
Lemma numeric_sorted_unique (column : column_def) (rows : list row)
    (columns : list column_def) (out1 out2 : list sortItem) :
  Forall well_formed_numeric (sortItems column rows columns) →
  out1 ≡ₚ sortItems column rows columns →
  out2 ≡ₚ sortItems column rows columns →
  sorted_by numberComparator out1 →
  sorted_by numberComparator out2 →
  out1 = out2.
Proof.
  intros Hwell Hperm1 Hperm2 Hsorted1 Hsorted2.
  apply (StronglySorted_unique_strong
           (λ x y, lexico (numeric_position x) (numeric_position y))).
  - intros x y _ _ Hxy Hyx. exfalso.
    apply (irreflexivity (@lexico (option Qc * nat) _) (numeric_position x)).
    by etrans.
  - apply lookups_strongly_sorted.
    by apply (numeric_sorted_increasing column rows columns).
  - apply lookups_strongly_sorted.
    by apply (numeric_sorted_increasing column rows columns).
  - by rewrite Hperm1, Hperm2.
Qed.

(** X14.  For a numeric column whose keys are all null or finite numbers,
    the ascending result is in order: of two rows the later one never has
    the smaller number, and after a row with a null key come only rows with
    a null key. *)
Theorem sortData_numeric_ascending_order (data : loc) (columnId : string)
    (columns : list column_def) (w : world) (column : column_def)
    (rows : list row) :
  getColumnById columns columnId = Some column →
  arrays w !! data = Some rows →
  numeric (effective_type column) = true →
  Forall well_formed_numeric (sortItems column rows columns) →
  ∃ sortedData w' sorted,
    sortData data columnId SortDirection.Ascending columns w
    = Return sortedData w'
    ∧ arrays w' !! sortedData = Some (rowData <$> sorted)
    ∧ sorted ≡ₚ sortItems column rows columns
    ∧ ∀ p q x y,
        sorted !! p = Some x → sorted !! q = Some y → (p < q)%nat →
        (is_nullish (sortValue x) = true → is_nullish (sortValue y) = true)
        ∧ (∀ vx vy,
             is_nullish (sortValue x) = false →
             is_nullish (sortValue y) = false →
             parseFloat (sortValue x) = Fin vx →
             parseFloat (sortValue y) = Fin vy →
             (vx ≤ vy)%Qc).
Proof.
  intros Hcolumn Hrows Hnumeric Hwell.
  pose proof (numeric_items_consistent _ _ Hnumeric Hwell) as HC.
  pose proof (host_sort_sorted _ _ _ HC) as Hsorted.
  rewrite (numeric_comparator _ Hnumeric) in Hsorted.
  exists (fresh (dom (arrays w))). eexists. eexists. split_and!.
  - by apply sortData_found.
  - simpl. apply lookup_insert_eq.
  - apply host_sort_perm.
  - rewrite (numeric_comparator _ Hnumeric).
    intros p q x y Hp Hq Hpq.
    pose proof (numeric_sorted_increasing column rows columns _ Hwell
                  (host_sort_perm _ _ _) Hsorted p q x y Hp Hq Hpq) as Hxy.
    assert (y ∈ sortItems column rows columns) as Hy.
    { rewrite <- (host_sort_perm _ numberComparator).
      by eapply list_elem_of_lookup_2. }
    rewrite Forall_forall in Hwell. specialize (Hwell y Hy).
    unfold numeric_position, lexico, prod_lexico in Hxy. cbn [fst snd] in Hxy.
    split.
    + intros Hnx. rewrite Hnx in Hxy.
      destruct (is_nullish (sortValue y)) eqn:Hny; [done|].
      destruct Hwell as [?|Hfin]; [congruence|].
      destruct (parseFloat (sortValue y)); try done.
      by destruct Hxy as [?|[? _]].
    + intros vx vy Hnx Hny Hvx Hvy. rewrite Hnx, Hny, Hvx, Hvy in Hxy.
      destruct Hxy as [Hlt|[[= ->] _]].
      * by apply Qclt_le_weak.
      * apply Qcle_refl.
Qed.

(** X15.  For such a column the ascending result does not depend on the
    sorting algorithm of the engine: it is the one arrangement of the rows
    that the comparator accepts as sorted. *)
Theorem sortData_numeric_engine_independent (data : loc) (columnId : string)
    (columns : list column_def) (w : world) (column : column_def)
    (rows : list row) (out : list sortItem) :
  getColumnById columns columnId = Some column →
  arrays w !! data = Some rows →
  numeric (effective_type column) = true →
  Forall well_formed_numeric (sortItems column rows columns) →
  out ≡ₚ sortItems column rows columns →
  sorted_by (getSortComparator (effective_type column)) out →
  ∃ sortedData w',
    sortData data columnId SortDirection.Ascending columns w
    = Return sortedData w'
    ∧ arrays w' !! sortedData = Some (rowData <$> out).
Proof.
  intros Hcolumn Hrows Hnumeric Hwell Hperm Hout.
  pose proof (numeric_items_consistent _ _ Hnumeric Hwell) as HC.
  pose proof (host_sort_sorted _ _ _ HC) as Hsorted.
  rewrite (numeric_comparator _ Hnumeric) in Hsorted, Hout.
  exists (fresh (dom (arrays w))). eexists. split.
  - by apply sortData_found.
  - simpl. rewrite lookup_insert_eq. do 2 f_equal.
    rewrite (numeric_comparator _ Hnumeric).
    apply (numeric_sorted_unique column rows columns); try done.
    apply host_sort_perm.
Qed.

End RowOrder.

Section NullsAndResorting.
Context `{Host} `{Callbacks}.

(** X16.  Where the rows with a null key go: under a consistent comparator
    every row with a null key stands, in the ascending result, after every
    row with a key for a numeric column and before it for any other
    column. *)
Theorem sortData_null_keys_placement (data : loc) (columnId : string)
    (columns : list column_def) (w : world) (column : column_def)
    (rows : list row) (a b : sortItem) :
  getColumnById columns columnId = Some column →
  arrays w !! data = Some rows →
  consistent_on (getSortComparator (effective_type column))
                (sortItems column rows columns) →
  a ∈ sortItems column rows columns →
  b ∈ sortItems column rows columns →
  is_nullish (sortValue a) = true →
  is_nullish (sortValue b) = false →
  ∃ sortedData w' sorted p q,
    sortData data columnId SortDirection.Ascending columns w
    = Return sortedData w'
    ∧ arrays w' !! sortedData = Some (rowData <$> sorted)
    ∧ sorted !! p = Some a ∧ sorted !! q = Some b
    ∧ if numeric (effective_type column) then (q < p)%nat else (p < q)%nat.
Proof.
  intros Hcolumn Hrows HC Ha Hb Hna Hnb.
  set (comparator := getSortComparator (effective_type column)) in *.
  set (items := sortItems column rows columns) in *.
  pose proof (host_sort_perm _ comparator items) as Hperm.
  pose proof (host_sort_sorted _ comparator items HC) as Hsorted.
  assert (a ∈ host_sort comparator items) as [p Hp]%list_elem_of_lookup_1
    by by rewrite Hperm.
  assert (b ∈ host_sort comparator items) as [q Hq]%list_elem_of_lookup_1
    by by rewrite Hperm.
  assert (∀ x, x ∈ items → cf_lt comparator x x = false) as Hirrefl.
  { intros x Hx. pose proof (cf_refl _ _ HC x Hx) as Hrefl.
    unfold cf_eq in Hrefl. by destruct (cf_lt comparator x x). }
  exists (fresh (dom (arrays w))). eexists.
  exists (host_sort comparator items), p, q. split_and!.
  - by apply sortData_found.
  - simpl. apply lookup_insert_eq.
  - done.
  - done.
  - destruct (numeric (effective_type column)) eqn:Hnumeric.
    + apply (sorted_by_lt_before comparator _ q p b a Hsorted Hq Hp);
        [|by apply Hirrefl].
      unfold cf_lt, comparator. rewrite (numeric_comparator _ Hnumeric).
      unfold numberComparator. by rewrite Hna, Hnb.
    + apply (sorted_by_lt_before comparator _ p q a b Hsorted Hp Hq);
        [|by apply Hirrefl].
      unfold cf_lt, comparator.
      destruct (effective_type column) as [[| | |?]|]; try done; simpl;
        unfold stringComparator, defaultComparator; by rewrite Hna, Hnb.
Qed.

(** The place of an item depends on its key and its index only. *)
Lemma numeric_position_key (a b : sortItem) :
  sortValue a = sortValue b →
  (numeric_position a).1 = (numeric_position b).1.
Proof. unfold numeric_position. by intros ->. Qed.

(** X17.  Sorting the ascending result again changes nothing: for a numeric
    column whose keys are all null or finite numbers, and whose sort values
    depend on the row only, a second ascending [sortData] returns the rows
    in the order of the first. *)
Theorem sortData_numeric_ascending_twice (data : loc) (columnId : string)
    (columns : list column_def) (w : world) (column : column_def)
    (rows : list row) :
  getColumnById columns columnId = Some column →
  arrays w !! data = Some rows →
  numeric (effective_type column) = true →
  Forall well_formed_numeric (sortItems column rows columns) →
  (∀ r i j tableData tableData',
     getSortValue column r i tableData columns
     = getSortValue column r j tableData' columns) →
  ∃ first w1 second w2 sorted,
    sortData data columnId SortDirection.Ascending columns w = Return first w1
    ∧ sortData first columnId SortDirection.Ascending columns w1
      = Return second w2
    ∧ arrays w1 !! first = Some sorted
    ∧ arrays w2 !! second = Some sorted
    ∧ second ≠ first.
Proof.
  intros Hcolumn Hrows Hnumeric Hwell Hkey.
  pose proof (numeric_items_consistent _ _ Hnumeric Hwell) as HC.
  pose proof (host_sort_sorted _ _ _ HC) as Hsorted.
  pose proof (host_sort_perm _ (getSortComparator (effective_type column))
                (sortItems column rows columns)) as Hperm.
  rewrite (numeric_comparator _ Hnumeric) in Hsorted, Hperm.
  set (items := sortItems column rows columns) in *.
  set (sorted := host_sort numberComparator items) in *.
  set (w1 := {| arrays := <[fresh (dom (arrays w)) := rowData <$> sorted]>
                            (arrays w);
                console := console w; production := production w |}).
  assert (sortData data columnId SortDirection.Ascending columns w
          = Return (fresh (dom (arrays w))) w1) as Hfirst.
  { rewrite (sortData_found _ _ _ _ _ column rows) by done.
    unfold w1, sorted, items. by rewrite (numeric_comparator _ Hnumeric). }
  assert (arrays w1 !! fresh (dom (arrays w)) = Some (rowData <$> sorted))
    as Hread by apply lookup_insert_eq.
  (* the items of the second call *)
  set (items' := sortItems column (rowData <$> sorted) columns).
  assert (∀ p x', items' !! p = Some x' →
            ∃ x, sorted !! p = Some x ∧ sortValue x' = sortValue x
                 ∧ index x' = p) as Hitems'.
  { intros p x' Hp. pose proof (sortItems_index _ _ _ _ _ Hp) as Hidx.
    unfold items' in Hp. rewrite sortItems_lookup, list_lookup_fmap in Hp.
    destruct (sorted !! p) as [x|] eqn:Hx; [|done].
    simpl in Hp. injection Hp as <-. exists x. split_and!; [done| |done].
    simpl.
    assert (x ∈ items) as [i Hi]%list_elem_of_lookup_1.
    { rewrite <- Hperm. by eapply list_elem_of_lookup_2. }
    unfold items in Hi. rewrite sortItems_lookup in Hi.
    destruct (rows !! i); [|done]. simpl in Hi. injection Hi as <-.
    simpl. apply Hkey. }
  assert (Forall well_formed_numeric items') as Hwell'.
  { apply Forall_forall. intros x' [p Hp]%list_elem_of_lookup_1.
    destruct (Hitems' p x' Hp) as (x & Hx & Hsame & _).
    unfold well_formed_numeric. rewrite Hsame.
    rewrite Forall_forall in Hwell. apply Hwell.
    rewrite <- Hperm. by eapply list_elem_of_lookup_2. }
  assert (host_sort numberComparator items' = items') as Hfixed.
  { pose proof (numeric_items_consistent _ _ Hnumeric Hwell') as HC'.
    pose proof (host_sort_sorted _ _ _ HC') as Hsorted'.
    rewrite (numeric_comparator _ Hnumeric) in Hsorted'.
    apply (StronglySorted_unique_strong
             (λ x y, lexico (numeric_position x) (numeric_position y))).
    - intros x y _ _ Hxy Hyx. exfalso.
      apply (irreflexivity (@lexico (option Qc * nat) _) (numeric_position x)).
      by etrans.
    - apply lookups_strongly_sorted.
      apply (numeric_sorted_increasing column (rowData <$> sorted) columns);
        [done | apply host_sort_perm | done].
    - apply lookups_strongly_sorted. intros p q x' y' Hp Hq Hpq.
      destruct (Hitems' p x' Hp) as (x & Hx & Hkx & Hix).
      destruct (Hitems' q y' Hq) as (y & Hy & Hky & Hiy).
      pose proof (numeric_sorted_increasing column rows columns sorted
                    Hwell Hperm Hsorted p q x y Hx Hy Hpq) as Hxy.
      unfold lexico, prod_lexico in Hxy |- *.
      rewrite (numeric_position_key x' x Hkx), (numeric_position_key y' y Hky).
      destruct Hxy as [?|[? _]]; [by left|right]. split; [done|].
      unfold numeric_position. cbn [snd]. unfold lexico, nat_lexico. lia.
    - apply host_sort_perm. }
  exists (fresh (dom (arrays w))), w1. do 2 eexists. exists (rowData <$> sorted).
  split_and!.
  - done.
  - by apply (sortData_found _ _ _ _ _ column (rowData <$> sorted)).
  - done.
  - simpl. rewrite lookup_insert_eq. f_equal.
    rewrite (numeric_comparator _ Hnumeric). fold items'.
    rewrite Hfixed. apply sortItems_rowData.
  - intros Hsame.
    pose proof (is_fresh (dom (arrays w1))) as Hnew. rewrite Hsame in Hnew.
    apply Hnew. apply elem_of_dom. by eexists.
Qed.

End NullsAndResorting.

(** ** The further properties on sample tables *)

Lemma sample_items_well_formed :
  Forall well_formed_numeric
    (sortItems Sample.number_column Sample.tied_rows [Sample.number_column]).
Proof. repeat constructor; first [by left | by right]. Qed.

Lemma equal_keys_ordered_by_index_sample :
  getSortComparator (Some DataType.Number)
    (Sample.item 0 (Sample.integer 7)) (Sample.item 2 (Sample.integer 7))
  = index_difference (Sample.item 0 (Sample.integer 7))
                     (Sample.item 2 (Sample.integer 7))
  ∧ cf_lt (getSortComparator (Some DataType.Number))
      (Sample.item 0 (Sample.integer 7)) (Sample.item 2 (Sample.integer 7))
    = true.
Proof.
  destruct (equal_keys_ordered_by_index (Some DataType.Number)
              (Sample.item 0 (Sample.integer 7))
              (Sample.item 2 (Sample.integer 7)))
    as (Hresult & Hlt & _).
  - reflexivity.
  - reflexivity.
  - split; [exact Hresult|]. apply Hlt. simpl. lia.
Defined.

Lemma sortData_descending_reverses_ties_sample :
  ∃ sortedData w' sorted p q,
    sortData 1%positive "n" SortDirection.Descending [Sample.text_column]
      (Sample.table Sample.text_rows) = Return sortedData w'
    ∧ arrays w' !! sortedData = Some (rowData <$> sorted)
    ∧ sorted ≡ₚ sortItems Sample.text_column Sample.text_rows
                          [Sample.text_column]
    ∧ sorted !! p
      = Some {| rowData := Sample.record 42 "n" (str "a");
                index := 1; sortValue := str "a" |}
    ∧ sorted !! q
      = Some {| rowData := Sample.record 43 "n" (str "a");
                index := 2; sortValue := str "a" |}
    ∧ (q < p)%nat.
Proof.
  apply (sortData_descending_reverses_ties 1%positive "n" [Sample.text_column]
           (Sample.table Sample.text_rows) Sample.text_column
           Sample.text_rows 1 2).
  - reflexivity.
  - reflexivity.
  - apply consistentb_sound. by vm_compute.
  - reflexivity.
  - reflexivity.
  - lia.
  - reflexivity.
Defined.

Lemma numberComparator_consistent_sample :
  consistent_on numberComparator
    (sortItems Sample.number_column Sample.tied_rows [Sample.number_column]).
Proof.
  exact (numberComparator_consistent _ sample_items_well_formed).
Defined.

(** The text ['5'] and the number [5]: a tie, ordered by index. *)
Lemma numberComparator_orders_numbers_sample :
  cf_lt numberComparator (Sample.item 0 (str "5"))
                         (Sample.item 1 (Sample.integer 5)) = true.
Proof.
  assert (parseFloat (str "5") = Fin (Qc_of_Z 5)) as Hfive
    by (cbv -[Q2Qc Qc_of_Z Qcopp]; f_equal; by apply Qc_is_canon).
  destruct (numberComparator_orders_numbers
              (Sample.item 0 (str "5")) (Sample.item 1 (Sample.integer 5))
              (Qc_of_Z 5) (Qc_of_Z 5) eq_refl eq_refl Hfive eq_refl)
    as [Hlt _].
  apply Hlt. right. split; [reflexivity | simpl; lia].
Defined.

(** ['Apple'] and ['aPPLE'] *)
Lemma stringComparator_ignores_case_sample :
  stringComparator (Sample.item 0 (str "Apple")) (Sample.item 1 (str "aPPLE"))
  = index_difference (Sample.item 0 (str "Apple"))
                     (Sample.item 1 (str "aPPLE")).
Proof.
  exact (proj1 (stringComparator_ignores_case
                  (Sample.item 0 (str "Apple")) (Sample.item 1 (str "aPPLE"))
                  eq_refl eq_refl eq_refl)).
Defined.

Lemma validateColumns_silent_iff_distinct_sample :
  validateColumns (Some Sample.distinct_columns) (Sample.table [])
  = Return () (Sample.table [])
  ↔ NoDup (column_id <$> Sample.distinct_columns).
Proof.
  apply (validateColumns_silent_iff_distinct Sample.distinct_columns
           (Sample.table [])).
  apply (bool_decide_unpack _). by vm_compute.
Defined.

Lemma validateColumns_throws_on_inherited_name_sample :
  validateColumns (Some Sample.columns_with_inherited_name) (Sample.table [])
  = Throw (TypeError "ids[id].push is not a function") (Sample.table []).
Proof.
  apply (validateColumns_throws_on_inherited_name
           Sample.columns_with_inherited_name (Sample.table [])).
  apply (bool_decide_unpack _). by vm_compute.
Defined.

Lemma getColumnById_own_id_sample :
  getColumnById Sample.distinct_columns "price"
  = Some (Sample.plain_column "price" (Some DataType.Number)).
Proof.
  apply (getColumnById_own_id Sample.distinct_columns
           (Sample.plain_column "price" (Some DataType.Number))).
  - apply (bool_decide_unpack _). by vm_compute.
  - apply (bool_decide_unpack _). by vm_compute.
Defined.

Lemma sortData_frame_sample :
  ∃ sortedData w',
    sortData 1%positive "n" SortDirection.Descending [Sample.number_column]
      (Sample.table Sample.tied_rows) = Return sortedData w'
    ∧ (dom (arrays w')
       = {[sortedData]} ∪ dom (arrays (Sample.table Sample.tied_rows)))
    ∧ (sortedData ∉ dom (arrays (Sample.table Sample.tied_rows)))
    ∧ (∀ a, a ∈ dom (arrays (Sample.table Sample.tied_rows)) →
            arrays w' !! a = arrays (Sample.table Sample.tied_rows) !! a)
    ∧ console w' = console (Sample.table Sample.tied_rows)
    ∧ production w' = production (Sample.table Sample.tied_rows).
Proof.
  exact (sortData_frame 1%positive "n" SortDirection.Descending
           [Sample.number_column] (Sample.table Sample.tied_rows)
           Sample.number_column Sample.tied_rows eq_refl eq_refl).
Defined.

Lemma sortData_numeric_ascending_order_sample :
  ∃ sortedData w' sorted,
    sortData 1%positive "n" SortDirection.Ascending [Sample.number_column]
      (Sample.table Sample.tied_rows) = Return sortedData w'
    ∧ arrays w' !! sortedData = Some (rowData <$> sorted)
    ∧ sorted ≡ₚ sortItems Sample.number_column Sample.tied_rows
                          [Sample.number_column]
    ∧ ∀ p q x y,
        sorted !! p = Some x → sorted !! q = Some y → (p < q)%nat →
        (is_nullish (sortValue x) = true → is_nullish (sortValue y) = true)
        ∧ (∀ vx vy,
             is_nullish (sortValue x) = false →
             is_nullish (sortValue y) = false →
             parseFloat (sortValue x) = Fin vx →
             parseFloat (sortValue y) = Fin vy →
             (vx ≤ vy)%Qc).
Proof.
  exact (sortData_numeric_ascending_order 1%positive "n"
           [Sample.number_column] (Sample.table Sample.tied_rows)
           Sample.number_column Sample.tied_rows eq_refl eq_refl eq_refl
           sample_items_well_formed).
Defined.

(** The arrangement the sorting algorithm that is not stable produces is
    the one [sortData] returns on the reference engine. *)
Lemma sortData_numeric_engine_independent_sample :
  ∃ sortedData w',
    sortData 1%positive "n" SortDirection.Ascending [Sample.number_column]
      (Sample.table Sample.tied_rows) = Return sortedData w'
    ∧ arrays w' !! sortedData
      = Some (rowData <$>
                Engine.unstable_sort sortItem numberComparator
                  (sortItems Sample.number_column Sample.tied_rows
                             [Sample.number_column])).
Proof.
  apply (sortData_numeric_engine_independent 1%positive "n"
           [Sample.number_column] (Sample.table Sample.tied_rows)
           Sample.number_column Sample.tied_rows).
  - reflexivity.
  - reflexivity.
  - reflexivity.
  - exact sample_items_well_formed.
  - apply unstable_sort_perm.
  - apply unstable_sort_sorted.
    exact (numeric_items_consistent (Some DataType.Number) _ eq_refl
             sample_items_well_formed).
Defined.

(** The row 22 has no number, the row 24 has: 24 comes first. *)
Lemma sortData_null_keys_placement_sample :
  ∃ sortedData w' sorted p q,
    sortData 1%positive "n" SortDirection.Ascending [Sample.number_column]
      (Sample.table Sample.tied_rows) = Return sortedData w'
    ∧ arrays w' !! sortedData = Some (rowData <$> sorted)
    ∧ sorted !! p
      = Some {| rowData := Sample.record 22 "n" null;
                index := 1; sortValue := null |}
    ∧ sorted !! q
      = Some {| rowData := Sample.record 24 "n" (Sample.integer 2);
                index := 3; sortValue := Sample.integer 2 |}
    ∧ (q < p)%nat.
Proof.
  apply (sortData_null_keys_placement 1%positive "n" [Sample.number_column]
           (Sample.table Sample.tied_rows) Sample.number_column
           Sample.tied_rows).
  - reflexivity.
  - reflexivity.
  - exact (numeric_items_consistent (Some DataType.Number) _ eq_refl
             sample_items_well_formed).
  - apply (list_elem_of_lookup_2 _ 1). reflexivity.
  - apply (list_elem_of_lookup_2 _ 3). reflexivity.
  - reflexivity.
  - reflexivity.
Defined.

Lemma sortData_numeric_ascending_twice_sample :
  ∃ first w1 second w2 sorted,
    sortData 1%positive "n" SortDirection.Ascending [Sample.number_column]
      (Sample.table Sample.tied_rows) = Return first w1
    ∧ sortData first "n" SortDirection.Ascending [Sample.number_column] w1
      = Return second w2
    ∧ arrays w1 !! first = Some sorted
    ∧ arrays w2 !! second = Some sorted
    ∧ second ≠ first.
Proof.
  apply (sortData_numeric_ascending_twice 1%positive "n"
           [Sample.number_column] (Sample.table Sample.tied_rows)
           Sample.number_column Sample.tied_rows).
  - reflexivity.
  - reflexivity.
  - reflexivity.
  - exact sample_items_well_formed.
  - reflexivity.
Defined.

(** ** The default comparator on numbers and on text *)

#[global] Instance Qc_lexico_po : StrictOrder (@lexico Qc _).
Proof. unfold lexico, Qc_lexico. apply _. Qed.

#[global] Instance Qc_lexico_trichotomy : TrichotomyT (@lexico Qc _).
Proof.
  intros p q. unfold lexico, Qc_lexico.
  destruct (Qc_dec p q) as [[?|?]|?]; [left; by left | by right | left; by right].
Defined.

Section DefaultOrder.
Context `{Host}.

Lemma defaultComparator_reads_position (a b : sortItem) :
  null_or_finite_number a → null_or_finite_number b →
  Number.is_nan (defaultComparator a b) = false
  ∧ (cf_lt defaultComparator a b = true
     ↔ lexico (default_position a) (default_position b))
  ∧ (cf_gt defaultComparator a b = true
     ↔ lexico (default_position b) (default_position a)).
Proof.
  intros Ha Hb.
  assert (∀ x, null_or_finite_number x →
            (is_nullish (sortValue x) = true
             ∧ default_position x = (false, 0%Qc, index x))
            ∨ ∃ q, sortValue x = num (Fin q)
                   ∧ default_position x = (true, q, index x)) as Hshape.
  { intros x [Hnull|[q Hq]].
    - left. split; [done|]. unfold default_position.
      by destruct (sortValue x) as [[| | |[]|]|].
    - right. exists q. split; [done|]. unfold default_position. by rewrite Hq. }
  unfold cf_lt, cf_gt, defaultComparator.
  destruct (Hshape a Ha) as [[Hna ->]|(p & Hp & ->)],
           (Hshape b Hb) as [[Hnb ->]|(q & Hq & ->)];
    repeat (unfold lexico, prod_lexico, bool_lexico, Qc_lexico, nat_lexico;
            cbn [fst snd]).
  - rewrite Hna, Hnb. cbn [andb].
    rewrite index_difference_negative, index_difference_positive.
    rewrite index_difference_of_Z.
    pose proof (irreflexivity Qclt 0%Qc).
    split; [done|]. split; split.
    + intros ?. by right.
    + intros [[[]|[_ ?]]|[_ ?]]; done.
    + intros ?. by right.
    + intros [[[]|[_ ?]]|[_ ?]]; done.
  - rewrite Hna, Hq. cbn [andb is_nullish num].
    split; [done|]. split; split.
    + intros _. left. left. done.
    + done.
    + done.
    + intros [[[]|[? _]]|[? _]]; done.
  - rewrite Hp, Hnb. cbn [andb is_nullish num].
    split; [done|]. split; split.
    + done.
    + intros [[[]|[? _]]|[? _]]; done.
    + intros _. left. left. done.
    + done.
  - rewrite Hp, Hq. cbn [andb is_nullish num strict_equals Number.strict_eq].
    case_bool_decide as Hpq.
    + subst q.
      rewrite index_difference_negative, index_difference_positive.
      rewrite index_difference_of_Z.
      pose proof (irreflexivity Qclt p).
      split; [done|]. split; split.
      * intros ?. by right.
      * intros [[[]|[_ ?]]|[_ ?]]; done.
      * intros ?. by right.
      * intros [[[]|[_ ?]]|[_ ?]]; done.
    + unfold less_than. cbn [ToPrimitive num ToNumber Number.lt].
      case_bool_decide as Hlt.
      * pose proof (Qclt_not_le _ _ Hlt) as Hnle.
        split; [done|]. split; split.
        -- intros _. left. right. done.
        -- done.
        -- done.
        -- intros [[[]|[_ Hqp]]|[[= E] _]]; exfalso; [|congruence].
           apply Hnle. by apply Qclt_le_weak.
      * assert (q < p)%Qc as Hqp.
        { destruct (Qc_dec p q) as [[?|?]|?]; [done | done | congruence]. }
        split; [done|]. split; split.
        -- done.
        -- intros [[[]|[_ ?]]|[[= E] _]]; exfalso; [done | congruence].
        -- intros _. left. right. done.
        -- done.
Qed.

(** X18.  On items whose keys are null or finite numbers the default
    comparator is a consistent comparison function; it puts the nulls
    first, orders the numbers, and breaks ties by index. *)
Theorem defaultComparator_consistent (S : list sortItem) :
  Forall null_or_finite_number S →
  consistent_on defaultComparator S
  ∧ ∀ a b, a ∈ S → b ∈ S →
           (cf_lt defaultComparator a b = true
            ↔ lexico (default_position a) (default_position b)).
Proof.
  rewrite Forall_forall. intros Hwell. split.
  - apply (consistent_of_strict_order _ default_position
             (@lexico (bool * Qc * nat) _)).
    + intros a b Ha Hb. by apply defaultComparator_reads_position; apply Hwell.
    + intros a b Ha Hb. by apply defaultComparator_reads_position; apply Hwell.
    + intros a b Ha Hb. by apply defaultComparator_reads_position; apply Hwell.
  - intros a b Ha Hb.
    by apply defaultComparator_reads_position; apply Hwell.
Qed.

End DefaultOrder.

Lemma default_items_sample :
  Forall null_or_finite_number
    (sortItems (Sample.plain_column "n" None) Sample.tied_rows
               [Sample.plain_column "n" None]).
Proof.
  unfold sortItems, Sample.tied_rows. simpl.
  repeat (apply Forall_cons; split); [| | | |done].
  - right. exists (Qc_of_Z 7). reflexivity.
  - left. reflexivity.
  - right. exists (Qc_of_Z 7). reflexivity.
  - right. exists (Qc_of_Z 2). reflexivity.
Qed.

Lemma defaultComparator_consistent_sample :
  consistent_on defaultComparator
    (sortItems (Sample.plain_column "n" None) Sample.tied_rows
               [Sample.plain_column "n" None]).
Proof.
  exact (proj1 (defaultComparator_consistent _ default_items_sample)).
Defined.

(** ** The descending order *)

(** X20.  For a numeric column whose keys are all null or finite numbers,
    the descending result is in the opposite order: the rows with a null
    key come first, and of two rows with a number the later one never has
    the larger. *)
Theorem sortData_numeric_descending_order `{Host} `{Callbacks} (data : loc)
    (columnId : string) (columns : list column_def) (w : world)
    (column : column_def) (rows : list row) :
  getColumnById columns columnId = Some column →
  arrays w !! data = Some rows →
  numeric (effective_type column) = true →
  Forall well_formed_numeric (sortItems column rows columns) →
  ∃ sortedData w' sorted,
    sortData data columnId SortDirection.Descending columns w
    = Return sortedData w'
    ∧ arrays w' !! sortedData = Some (rowData <$> sorted)
    ∧ sorted ≡ₚ sortItems column rows columns
    ∧ ∀ p q x y,
        sorted !! p = Some x → sorted !! q = Some y → (p < q)%nat →
        (is_nullish (sortValue y) = true → is_nullish (sortValue x) = true)
        ∧ (∀ vx vy,
             is_nullish (sortValue x) = false →
             is_nullish (sortValue y) = false →
             parseFloat (sortValue x) = Fin vx →
             parseFloat (sortValue y) = Fin vy →
             (vy ≤ vx)%Qc).
Proof.
  intros Hcolumn Hrows Hnumeric Hwell.
  pose proof (numeric_items_consistent _ _ Hnumeric Hwell) as HC.
  pose proof (host_sort_sorted _ _ _ HC) as Hsorted.
  pose proof (host_sort_perm _ (getSortComparator (effective_type column))
                (sortItems column rows columns)) as Hperm.
  rewrite (numeric_comparator _ Hnumeric) in Hsorted, Hperm.
  set (ascending := host_sort numberComparator
                              (sortItems column rows columns)) in *.
  exists (fresh (dom (arrays w))). eexists. exists (reverse ascending).
  split_and!.
  - by apply sortData_found.
  - simpl. rewrite lookup_insert_eq, (numeric_comparator _ Hnumeric).
    by rewrite fmap_reverse.
  - by rewrite reverse_Permutation.
  - intros p q x y Hp Hq Hpq.
    pose proof (lookup_lt_Some _ _ _ Hp) as Hp_lt.
    pose proof (lookup_lt_Some _ _ _ Hq) as Hq_lt.
    rewrite length_reverse in Hp_lt, Hq_lt.
    rewrite reverse_lookup in Hp, Hq by done.
    assert (length ascending - S q < length ascending - S p)%nat as Hqp by lia.
    pose proof (numeric_sorted_increasing column rows columns ascending
                  Hwell Hperm Hsorted _ _ y x Hq Hp Hqp) as Hyx.
    assert (x ∈ sortItems column rows columns) as Hx.
    { rewrite <- Hperm. by eapply list_elem_of_lookup_2. }
    rewrite Forall_forall in Hwell. specialize (Hwell x Hx).
    unfold numeric_position, lexico, prod_lexico in Hyx. cbn [fst snd] in Hyx.
    split.
    + intros Hny. rewrite Hny in Hyx.
      destruct (is_nullish (sortValue x)) eqn:Hnx; [done|].
      destruct Hwell as [?|Hfin]; [congruence|].
      destruct (parseFloat (sortValue x)); try done.
      by destruct Hyx as [?|[? _]].
    + intros vx vy Hnx Hny Hvx Hvy. rewrite Hnx, Hny, Hvx, Hvy in Hyx.
      destruct Hyx as [Hlt|[[= ->] _]].
      * by apply Qclt_le_weak.
      * apply Qcle_refl.
Qed.

Lemma sortData_numeric_descending_order_sample :
  ∃ sortedData w' sorted,
    sortData 1%positive "n" SortDirection.Descending [Sample.number_column]
      (Sample.table Sample.tied_rows) = Return sortedData w'
    ∧ arrays w' !! sortedData = Some (rowData <$> sorted)
    ∧ sorted ≡ₚ sortItems Sample.number_column Sample.tied_rows
                          [Sample.number_column]
    ∧ ∀ p q x y,
        sorted !! p = Some x → sorted !! q = Some y → (p < q)%nat →
        (is_nullish (sortValue y) = true → is_nullish (sortValue x) = true)
        ∧ (∀ vx vy,
             is_nullish (sortValue x) = false →
             is_nullish (sortValue y) = false →
             parseFloat (sortValue x) = Fin vx →
             parseFloat (sortValue y) = Fin vy →
             (vy ≤ vx)%Qc).
Proof.
  exact (sortData_numeric_descending_order 1%positive "n"
           [Sample.number_column] (Sample.table Sample.tied_rows)
           Sample.number_column Sample.tied_rows eq_refl eq_refl eq_refl
           sample_items_well_formed).
Defined.
